(** * The front end of the interpreter: tokenizer and recursive-descent parser

    A shallow embedding of [src/program/lexer.cpp] and of the parser
    translation unit ([Parser::parse] and the functions it reaches), with
    the properties of the front end stated and proved on it.

    Conventions of the embedding.
    - [std::string] is [string]; [s[i]] is [char_at s i], which is the
      character at [i] and the terminating NUL at [i = s.length()] (the
      lexer never indexes further than that).
    - [std::vector<Token>] is [list Token]; [push_back] appends at the end;
      [tokens[i]] is [nth_error tokens i], and an index outside the vector
      (undefined behaviour in C++) is the outcome [OutOfBounds].
    - A C++ exception is the outcome [Throw]; it carries the parser's
      fields at the point of the throw.
    - Loops and recursive calls are bounded by a [fuel] counter; running out
      of it is a separate outcome ([LexFuel], [OutOfFuel]) that no theorem
      below confuses with a result of the program. *)

From Stdlib Require Import String Ascii List Bool Arith Lia.
Import ListNotations.

Local Open Scope string_scope.
Local Open Scope list_scope.

(** ** Tokens ([Lexer::Token], [Lexer::Category]) *)

(** The categories of [Lexer::Category], in the order [Lexer::Token::log]
    lists them. *)
Inductive Category : Type :=
| PUNCTUATOR
| KEYWORD
| IDENTIFIER
| OPERATOR
| INTEGER_LITERAL
| FLOAT_LITERAL
| BOOLEAN_LITERAL
| STRING_LITERAL
| LINE_COMMENT
| BLOCK_COMMENT
| UNKNOWN.

Definition Category_eqb (a b : Category) : bool :=
  match a, b with
  | PUNCTUATOR, PUNCTUATOR | KEYWORD, KEYWORD | IDENTIFIER, IDENTIFIER
  | OPERATOR, OPERATOR | INTEGER_LITERAL, INTEGER_LITERAL
  | FLOAT_LITERAL, FLOAT_LITERAL | BOOLEAN_LITERAL, BOOLEAN_LITERAL
  | STRING_LITERAL, STRING_LITERAL | LINE_COMMENT, LINE_COMMENT
  | BLOCK_COMMENT, BLOCK_COMMENT | UNKNOWN, UNKNOWN => true
  | _, _ => false
  end.

Record Token : Type := mkToken { category : Category; value : string }.

(** ** The tokenizer ([src/program/lexer.cpp]) *)

Module Lexer.

Definition keywords : list string :=
  [ "let"; "var"; "const"; "function"; "return"; "true"; "false"; "if";
    "else"; "for"; "while"; "break"; "continue" ].

Definition operators : list string :=
  [ "="; "!"; "+"; "-"; "*"; "/"; "%"; "+="; "-="; "*="; "/="; "%="; "==";
    "!="; "<"; "<="; ">"; ">=" ].

Definition punctuators : list string :=
  [ ";"; "."; ","; "("; ")"; "{"; "}"; "["; "]" ].

(** The three membership tests are the same linear scan. *)
Fixpoint mem (value : string) (l : list string) : bool :=
  match l with
  | [] => false
  | e :: rest => if String.eqb value e then true else mem value rest
  end.

Definition is_keyword (value : string) : bool := mem value keywords.
Definition is_operator (value : string) : bool := mem value operators.
Definition is_punctuator (value : string) : bool := mem value punctuators.

(** [<cctype>] in the "C" locale. *)
Definition isspace (c : ascii) : bool :=
  let n := nat_of_ascii c in
  (((9 <=? n) && (n <=? 13)) || (n =? 32))%nat.

Definition isdigit (c : ascii) : bool :=
  let n := nat_of_ascii c in ((48 <=? n) && (n <=? 57))%nat.

Definition isalpha (c : ascii) : bool :=
  let n := nat_of_ascii c in
  (((65 <=? n) && (n <=? 90)) || ((97 <=? n) && (n <=? 122)))%nat.

(** [raw[i]]: the character at [i], NUL at the end of the string. *)
Definition char_at (raw : string) (i : nat) : ascii :=
  match String.get i raw with
  | Some c => c
  | None => Ascii.zero
  end.

(** The double quote character. *)
Definition dquote : ascii := ascii_of_nat 34.

(** [s + c] and [std::string(1, c)]. *)
Definition push (s : string) (c : ascii) : string := s ++ String c "".
Definition str1 (c : ascii) : string := String c "".

(** The inner loops all have the shape
    [while (i + 1 < raw.length() && P(ct.value, raw[i + 1])) ct.value += raw[++i];]
    [extend] runs it from cursor [i] and accumulated text [v]; [None] is
    fuel exhausted. *)
Fixpoint extend (P : string -> ascii -> bool) (raw : string) (fuel : nat)
    (i : nat) (v : string) : option (nat * string) :=
  if (i + 1 <? String.length raw)%nat && P v (char_at raw (i + 1)) then
    match fuel with
    | 0 => None
    | S fuel' => extend P raw fuel' (i + 1) (push v (char_at raw (i + 1)))
    end
  else Some (i, v).

Definition alnum_next (_ : string) (c : ascii) : bool := isalpha c || isdigit c.
Definition digit_next (_ : string) (c : ascii) : bool := isdigit c.
Definition operator_next (v : string) (c : ascii) : bool := is_operator (push v c).
Definition punctuator_next (v : string) (c : ascii) : bool := is_punctuator (push v c).
Definition string_next (_ : string) (c : ascii) : bool :=
  negb (Ascii.eqb c dquote).

Inductive LexResult : Type :=
| LexOk (tokens : list Token)
| LexError (msg : string)
| LexFuel.

(** Sequencing an inner loop inside the body of the main loop. *)
Definition with_extend (r : option (nat * string))
    (k : nat -> string -> LexResult) : LexResult :=
  match r with
  | Some (i, v) => k i v
  | None => LexFuel
  end.

(** The [for] loop of [Lexer::lex], entered at cursor [i] with the tokens
    pushed so far. Each [continue] is the recursive call at [i + 1]. *)
Fixpoint lex_loop (fuel : nat) (raw : string) (i : nat) (tokens : list Token)
    : LexResult :=
  match fuel with
  | 0 => LexFuel
  | S fuel' =>
    let len := String.length raw in
    if negb (i <? len)%nat then LexOk tokens else
    let c := char_at raw i in
    if isspace c then lex_loop fuel' raw (i + 1) tokens
    else if isalpha c then
      with_extend (extend alnum_next raw len i (str1 c)) (fun i v =>
        let cat :=
          if String.eqb v "false" || String.eqb v "true" then BOOLEAN_LITERAL
          else if is_keyword v then KEYWORD else IDENTIFIER in
        lex_loop fuel' raw (i + 1) (tokens ++ [mkToken cat v]))
    else if isdigit c then
      with_extend (extend digit_next raw len i (str1 c)) (fun i v =>
        if Ascii.eqb (char_at raw (i + 1)) "."%char
           && isdigit (char_at raw (i + 2))
        then
          with_extend
            (extend digit_next raw len (i + 1) (push v (char_at raw (i + 1))))
            (fun i v =>
               lex_loop fuel' raw (i + 1) (tokens ++ [mkToken FLOAT_LITERAL v]))
        else lex_loop fuel' raw (i + 1) (tokens ++ [mkToken INTEGER_LITERAL v]))
    else if is_operator (str1 c) then
      with_extend (extend operator_next raw len i (str1 c)) (fun i v =>
        lex_loop fuel' raw (i + 1) (tokens ++ [mkToken OPERATOR v]))
    else if is_punctuator (str1 c) then
      with_extend (extend punctuator_next raw len i (str1 c)) (fun i v =>
        lex_loop fuel' raw (i + 1) (tokens ++ [mkToken PUNCTUATOR v]))
    else if Ascii.eqb c dquote then
      with_extend (extend string_next raw len i "") (fun i v =>
        lex_loop fuel' raw (i + 1 + 1) (tokens ++ [mkToken STRING_LITERAL v]))
    else LexError ("Unkown token: " ++ "")
  end.

(** [Lexer::Lexer] on the text of the source: one iteration per character
    at most, plus the final test of the loop condition. *)
Definition lex (raw : string) : LexResult :=
  lex_loop (S (String.length raw)) raw 0 [].

End Lexer.

(** [Lexer::Token::log]: the text written to [std::cout] for a token. The
    [default] branch of the switch is taken by [UNKNOWN]. *)
Definition category_name (c : Category) : string :=
  match c with
  | PUNCTUATOR => "punctuator"
  | KEYWORD => "keyword"
  | IDENTIFIER => "identifier"
  | OPERATOR => "operator"
  | INTEGER_LITERAL => "integer_literal"
  | FLOAT_LITERAL => "float_literal"
  | BOOLEAN_LITERAL => "boolean_literal"
  | STRING_LITERAL => "string_literal"
  | LINE_COMMENT => "line_comment"
  | BLOCK_COMMENT => "block_comment"
  | UNKNOWN => "unknown"
  end.

Definition log (t : Token) : string :=
  ("(" ++ category_name (category t) ++ "): '" ++ value t ++ "'")%string.

(** ** The syntax tree ([Parser::Node] and its subclasses) *)

(** Modelled from the spec: the node classes are declared in
    [program/parser.h], which is not part of the sources at hand; the
    variants and their fields follow section 3 of the specification and the
    constructor calls and field names of the parser's code. An absent
    [fail_statement] (a null pointer) is [None]. *)
#[local] Set Warnings "-register-all".
Inductive Node : Type :=
| EmptyStatement
| VariableDeclaration (type identifier : string) (value : Node)
| FunctionDeclaration (type identifier : string)
    (args_types args_ids : list string) (statement : Node)
| VariableAssignment (identifier : string) (value : Node)
| ScopeDeclaration (ast : list Node)
| ConditionalStatement (condition pass_statement : Node)
    (fail_statement : option Node)
| WhileLoopStatement (condition statement : Node)
| ReturnStatement (expr : Node)
| FunctionCall (identifier : string) (args : list Node)
| VariableCall (identifier : string)
| BinaryOperation (left : Node) (op : string) (right : Node)
| UnaryOperation (op : string) (right : Node)
| CastOperation (expr : Node) (type : string)
| IntegerLiteral (value : string)
| FloatLiteral (value : string)
| BooleanLiteral (value : bool)
| StringLiteral (value : string).

(** ** The parser *)

(** The mutable fields of a [Parser] object. The cursor [current] starts
    at the first token. *)
Record Fields : Type := mkFields { current : nat; success : bool }.

(** What a call of a parser method can do: return, throw, index the token
    vector outside its bounds, or exhaust the fuel of the model. *)
Inductive Outcome (A : Type) : Type :=
| Return (a : A) (s : Fields)
| Throw (msg : string) (s : Fields)
| OutOfBounds
| OutOfFuel.

Arguments Return {A} a s.
Arguments Throw {A} msg s.
Arguments OutOfBounds {A}.
Arguments OutOfFuel {A}.

Definition M (A : Type) : Type := Fields -> Outcome A.

Definition ret {A} (a : A) : M A := fun s => Return a s.

Definition bind {A B} (m : M A) (k : A -> M B) : M B :=
  fun s =>
    match m s with
    | Return a s' => k a s'
    | Throw msg s' => Throw msg s'
    | OutOfBounds => OutOfBounds
    | OutOfFuel => OutOfFuel
    end.

Definition throw {A} (msg : string) : M A := fun s => Throw msg s.
Definition out_of_fuel {A} : M A := fun _ => OutOfFuel.
Definition get_current : M nat := fun s => Return (current s) s.
Definition set_current (c : nat) : M unit :=
  fun s => Return tt (mkFields c (success s)).
Definition set_success (b : bool) : M unit :=
  fun s => Return tt (mkFields (current s) b).

Declare Scope parser_scope.
Delimit Scope parser_scope with parser.
Notation "x <- m ;; k" := (bind m (fun x => k))
  (at level 61, m at next level, right associativity) : parser_scope.
Notation "m ;;; k" := (bind m (fun _ => k))
  (at level 61, right associativity) : parser_scope.
Local Open Scope parser_scope.

Section Parser.

(** The token vector the parser was constructed on; it is never modified. *)
Variable tokens : list Token.

(** [tokens[i]]. *)
Definition token_at (i : nat) : M Token :=
  fun s =>
    match nth_error tokens i with
    | Some t => Return t s
    | None => OutOfBounds
    end.

Definition at_end : M bool :=
  c <- get_current ;; ret (length tokens <=? c)%nat.

Definition peek : M Token :=
  c <- get_current ;; token_at c.

(** [tokens[current - 1]]; at [current = 0] the index is no position of
    the vector. *)
Definition previous : M Token :=
  c <- get_current ;;
  match c with
  | 0 => fun _ => OutOfBounds
  | S c' => token_at c'
  end.

Definition next : M Token :=
  e <- at_end ;;
  if negb e then c <- get_current ;; token_at (c + 1)
  else peek.

Definition advance : M Token :=
  e <- at_end ;;
  (if negb e then c <- get_current ;; set_current (c + 1) else ret tt) ;;;
  previous.

(** [match] (a reserved word here, hence the underscore). *)
Fixpoint match_ (values : list string) : M bool :=
  match values with
  | [] => ret false
  | type :: rest =>
    t <- peek ;;
    if String.eqb (value t) type then advance ;;; ret true
    else match_ rest
  end.

Fixpoint match_next (values : list string) : M bool :=
  match values with
  | [] => ret false
  | type :: rest =>
    t <- next ;;
    if String.eqb (value t) type then ret true
    else match_next rest
  end.

Definition type_names : list string :=
  [ "uint8"; "uint16"; "uint32"; "uint64"; "int8"; "int16"; "int32"; "int64";
    "float8"; "float16"; "float32"; "float64"; "bool"; "string"; "vector";
    "ptr"; "ref" ].

Definition peek_category_is (c : Category) : M bool :=
  t <- peek ;; ret (Category_eqb (category t) c).

Definition peek_value_is (v : string) : M bool :=
  t <- peek ;; ret (String.eqb (value t) v).

Definition match_key : M bool :=
  i <- peek_category_is IDENTIFIER ;;
  if i then advance ;;; ret true
  else
    k <- peek_category_is KEYWORD ;;
    if k then match_ type_names else ret false.

Definition error {A} (msg : string) : M A :=
  set_success false ;;; throw msg.

Definition consume (type message : string) : M Token :=
  p <- peek_value_is type ;;
  if p then
    c <- get_current ;; t <- token_at c ;; set_current (c + 1) ;;; ret t
  else error message.

(** *** Expressions *)

(** The loop shared by [equality], [comparison], [term], [factor] and
    [remainder]:
    [while (match(values)) { op = previous().value; right = operand();
       expr = BinaryOperation(expr, op, right); }]. *)
Fixpoint binary_loop (values : list string) (operand : M Node) (fuel : nat)
    (expr : Node) : M Node :=
  m <- match_ values ;;
  if m then
    match fuel with
    | 0 => out_of_fuel
    | S fuel' =>
      op <- previous ;;
      right <- operand ;;
      binary_loop values operand fuel' (BinaryOperation expr (value op) right)
    end
  else ret expr.

(** The loop of [cast]. *)
Fixpoint cast_loop (fuel : nat) (expr : Node) : M Node :=
  m <- match_ ["as"] ;;
  if m then
    match fuel with
    | 0 => out_of_fuel
    | S fuel' =>
      t <- advance ;; cast_loop fuel' (CastOperation expr (value t))
    end
  else ret expr.

(** The argument loop of a call, in [primary] and in [function_call]:
    [while (peek().value != ")") { args.push_back(expression());
       if (peek().value != ")") consume(",", "Expected ','"); }]. *)
Fixpoint args_loop (expression : M Node) (fuel : nat) (args : list Node)
    : M (list Node) :=
  p <- peek_value_is ")" ;;
  if negb p then
    match fuel with
    | 0 => out_of_fuel
    | S fuel' =>
      e <- expression ;;
      p' <- peek_value_is ")" ;;
      (if negb p' then consume "," "Expected ','" ;;; ret tt else ret tt) ;;;
      args_loop expression fuel' (args ++ [e])
    end
  else ret args.

Fixpoint expression (fuel : nat) : M Node :=
  match fuel with
  | 0 => out_of_fuel
  | S f => equality f
  end

with equality (fuel : nat) : M Node :=
  match fuel with
  | 0 => out_of_fuel
  | S f =>
    expr <- comparison f ;;
    binary_loop ["=="; "!="] (comparison f) f expr
  end

with comparison (fuel : nat) : M Node :=
  match fuel with
  | 0 => out_of_fuel
  | S f =>
    expr <- cast f ;;
    binary_loop ["<"; "<="; ">"; ">="] (cast f) f expr
  end

with cast (fuel : nat) : M Node :=
  match fuel with
  | 0 => out_of_fuel
  | S f =>
    expr <- term f ;;
    cast_loop f expr
  end

with term (fuel : nat) : M Node :=
  match fuel with
  | 0 => out_of_fuel
  | S f =>
    expr <- factor f ;;
    binary_loop ["+"; "-"] (factor f) f expr
  end

with factor (fuel : nat) : M Node :=
  match fuel with
  | 0 => out_of_fuel
  | S f =>
    expr <- remainder f ;;
    binary_loop ["*"; "/"] (remainder f) f expr
  end

with remainder (fuel : nat) : M Node :=
  match fuel with
  | 0 => out_of_fuel
  | S f =>
    expr <- unary f ;;
    binary_loop ["%"] (unary f) f expr
  end

with unary (fuel : nat) : M Node :=
  match fuel with
  | 0 => out_of_fuel
  | S f =>
    m <- match_ ["-"; "!"] ;;
    if m then
      op <- previous ;;
      right <- unary f ;;
      ret (UnaryOperation (value op) right)
    else primary f
  end

with primary (fuel : nat) : M Node :=
  match fuel with
  | 0 => out_of_fuel
  | S f =>
    c <- peek_category_is INTEGER_LITERAL ;;
    if c then t <- advance ;; ret (IntegerLiteral (value t)) else
    c <- peek_category_is FLOAT_LITERAL ;;
    if c then t <- advance ;; ret (FloatLiteral (value t)) else
    c <- peek_category_is BOOLEAN_LITERAL ;;
    if c then t <- advance ;; ret (BooleanLiteral (String.eqb (value t) "true")) else
    c <- peek_category_is STRING_LITERAL ;;
    if c then t <- advance ;; ret (StringLiteral (value t)) else
    c <- peek_category_is IDENTIFIER ;;
    if c then
      n <- next ;;
      if String.eqb (value n) "(" then
        t <- advance ;;
        advance ;;;
        args <- args_loop (expression f) f [] ;;
        consume ")" "Expected ')'" ;;;
        ret (FunctionCall (value t) args)
      else
        t <- advance ;; ret (VariableCall (value t))
    else
      m <- match_ ["("] ;;
      if m then
        expr <- expression f ;;
        consume ")" "Expected ')' after expression" ;;;
        ret expr
      else
        t <- peek ;;
        error ("Unexpected token '" ++ value t ++ "'")
  end.

(** *** Statements *)

Definition variable_declaration (fuel : nat) : M Node :=
  p <- previous ;;
  let op := value p in
  c <- peek_category_is IDENTIFIER ;;
  identifier <- (if c then t <- advance ;; ret (value t)
                 else error "Expected identifier") ;;
  consume "=" "Expected '='" ;;;
  v <- expression fuel ;;
  consume ";" "Expected ';' after statement" ;;;
  ret (VariableDeclaration op identifier v).

(** The operator text a compound assignment leaves in the
    [BinaryOperation] it builds; the default-constructed [op] stays empty
    when no branch of the chain applies. *)
Definition compound_op (op : string) : string :=
  if String.eqb op "+=" then "+"
  else if String.eqb op "-=" then "-"
  else if String.eqb op "*=" then "*"
  else if String.eqb op "/=" then "/"
  else if String.eqb op "%=" then "%"
  else "".

Definition variable_assignment (fuel : nat) : M Node :=
  t <- advance ;;
  let identifier := value t in
  c <- peek_category_is OPERATOR ;;
  op <- (if c then o <- advance ;; ret (value o)
         else error "Expected operator") ;;
  v <- expression fuel ;;
  consume ";" "Expected ';' after statement" ;;;
  if String.eqb op "=" then ret (VariableAssignment identifier v)
  else
    ret (VariableAssignment identifier
           (BinaryOperation (VariableCall identifier) (compound_op op) v)).

Definition return_statement (fuel : nat) : M Node :=
  p <- peek_value_is ";" ;;
  e <- (if p then ret EmptyStatement else expression fuel) ;;
  consume ";" "Expected ';' after statement" ;;;
  ret (ReturnStatement e).

Definition function_call (fuel : nat) : M Node :=
  t <- advance ;;
  advance ;;;
  args <- args_loop (expression fuel) fuel [] ;;
  advance ;;;
  consume ";" "Expected ';' after statement" ;;;
  ret (FunctionCall (value t) args).

(** The loop of [scope_declaration], over the parser of one statement. *)
Fixpoint scope_loop (statement : M Node) (fuel : nat) (ast : list Node)
    : M (list Node) :=
  p <- peek_value_is "}" ;;
  if negb p then
    match fuel with
    | 0 => out_of_fuel
    | S fuel' =>
      n <- statement ;;
      scope_loop statement fuel' (ast ++ [n])
    end
  else ret ast.

Fixpoint statement (fuel : nat) : M Node :=
  match fuel with
  | 0 => out_of_fuel
  | S f =>
    let tail :=
      m <- match_ [";"] ;;
      if m then ret EmptyStatement else expression f in
    let declarations :=
      k <- match_key ;;
      if k then
        c <- peek_category_is IDENTIFIER ;;
        if c then
          n <- match_next ["="] ;;
          if n then variable_declaration f else tail
        else tail
      else tail in
    m <- match_ ["{"] ;;
    if m then scope_declaration f else
    m <- match_ ["if"; "else"] ;;
    if m then conditional_statement f else
    m <- match_ ["while"] ;;
    if m then while_loop_statement f else
    m <- match_ ["return"] ;;
    if m then return_statement f else
    c <- peek_category_is IDENTIFIER ;;
    if c then
      n <- match_next ["="; "+="; "-="; "*="; "/="; "%="] ;;
      if n then variable_assignment f else
      n <- match_next ["("] ;;
      if n then function_call f else declarations
    else declarations
  end

with scope_declaration (fuel : nat) : M Node :=
  match fuel with
  | 0 => out_of_fuel
  | S f =>
    ast <- scope_loop (statement f) f [] ;;
    advance ;;;
    ret (ScopeDeclaration ast)
  end

with conditional_statement (fuel : nat) : M Node :=
  match fuel with
  | 0 => out_of_fuel
  | S f =>
    consume "(" "Expected '('" ;;;
    condition <- expression f ;;
    consume ")" "Expected ')'" ;;;
    pass_statement <- statement f ;;
    e <- peek_value_is "else" ;;
    if e then
      advance ;;;
      fail_statement <- statement f ;;
      ret (ConditionalStatement condition pass_statement (Some fail_statement))
    else ret (ConditionalStatement condition pass_statement None)
  end

with while_loop_statement (fuel : nat) : M Node :=
  match fuel with
  | 0 => out_of_fuel
  | S f =>
    consume "(" "Expected '('" ;;;
    condition <- expression f ;;
    consume ")" "Expected ')'" ;;;
    body <- statement f ;;
    ret (WhileLoopStatement condition body)
  end.

(** The parameter loop of [function_declaration]. *)
Fixpoint params_loop (fuel : nat) (args_types args_ids : list string)
    : M (list string * list string) :=
  p <- peek_value_is ")" ;;
  if negb p then
    match fuel with
    | 0 => out_of_fuel
    | S fuel' =>
      ty <- advance ;;
      id <- advance ;;
      p' <- peek_value_is ")" ;;
      (if negb p' then consume "," "Expected ','" ;;; ret tt else ret tt) ;;;
      params_loop fuel' (args_types ++ [value ty]) (args_ids ++ [value id])
    end
  else ret (args_types, args_ids).

Definition function_declaration (fuel : nat) : M Node :=
  p <- previous ;;
  let type := value p in
  c <- peek_category_is IDENTIFIER ;;
  identifier <- (if c then t <- advance ;; ret (value t)
                 else error "Expected identifier") ;;
  consume "(" "Expected '('" ;;;
  ps <- params_loop fuel [] [] ;;
  consume ")" "Expected ')' after statement" ;;;
  body <- statement fuel ;;
  ret (FunctionDeclaration type identifier (fst ps) (snd ps) body).

Definition global_statement (fuel : nat) : M Node :=
  let fail := throw "Unexpected global statement encountered." in
  v <- match_ ["void"] ;;
  k <- (if v then ret true else match_key) ;;
  if k then
    c <- peek_category_is IDENTIFIER ;;
    if c then
      n <- match_next ["("] ;;
      if n then function_declaration fuel else fail
    else fail
  else fail.

(** The loop of [Parser::parse]. *)
Fixpoint parse_loop (fuel : nat) (statements : list Node) : M (list Node) :=
  e <- at_end ;;
  if negb e then
    match fuel with
    | 0 => out_of_fuel
    | S fuel' =>
      n <- global_statement fuel' ;;
      parse_loop fuel' (statements ++ [n])
    end
  else ret statements.

Definition parse (fuel : nat) : M (list Node) := parse_loop fuel [].

End Parser.

(** Modelled from the spec: the initializer of [current] is in the class
    declaration ([program/parser.h], not among the sources at hand); the
    single cursor of the specification starts on the first token. The
    constructor sets [success = true]. *)
Definition initial : Fields := mkFields 0 true.

(** A budget of recursive calls and loop iterations for a token vector.
    An outcome reached within it is the outcome at every larger budget
    ([Parser_fuel] below). *)
Definition budget (tokens : list Token) : nat := 32 * S (length tokens).

(** [Parser::Parser]: the constructor sets [success] and runs [parse]; the
    result is the [ast] field on return. *)
Definition Parser (tokens : list Token) : Outcome (list Node) :=
  parse tokens (budget tokens) initial.

(** Source text to syntax tree: the tokenizer, then the parser on its
    tokens. A lexical error is kept apart from the parser's outcomes. *)
Inductive FrontEnd : Type :=
| Lexical (r : Lexer.LexResult)
| Parsed (r : Outcome (list Node)).

Definition front_end (raw : string) : FrontEnd :=
  match Lexer.lex raw with
  | Lexer.LexOk tokens => Parsed (Parser tokens)
  | r => Lexical r
  end.

(** The tokens of a text that lexes; the empty vector otherwise. *)
Definition tokens_of (raw : string) : list Token :=
  match Lexer.lex raw with
  | Lexer.LexOk tokens => tokens
  | _ => []
  end.

(** ** Vocabulary of the properties *)

(** More fuel never changes an outcome other than [OutOfFuel]: the results
    proved below at one amount of fuel hold at every larger one. [refines]
    orders outcomes with [OutOfFuel] at the bottom. *)
Definition refines {A} (r r' : Outcome A) : Prop := r = OutOfFuel \/ r = r'.

Definition le_M {A} (p q : M A) : Prop := forall s, refines (p s) (q s).

(** The texts on which a level of the expression cascade goes on: the
    binary operators and [as], in the order the cascade tests them on the
    way out of an operand. *)
Definition continuing : list string :=
  [ "%"; "*"; "/"; "+"; "-"; "as"; "<"; "<="; ">"; ">="; "=="; "!=" ].

Definition continues_expression (t : Token) : bool :=
  Lexer.mem (value t) continuing.

(** The texts [statement] dispatches on before it looks at the category of
    the current token. *)
Definition dispatched : list string := ["{"; "if"; "else"; "while"; "return"].

(** An IDENTIFIER token is [plain] when its text is none of them. *)
Definition plain (t : Token) : Prop :=
  category t = IDENTIFIER -> Lexer.mem (value t) dispatched = false.

(** Every character of a text passes a test. *)
Fixpoint all_chars (P : ascii -> bool) (s : string) : bool :=
  match s with
  | EmptyString => true
  | String c r => P c && all_chars P r
  end.

(** The characters some branch of [Lexer::lex] starts on. *)
Definition accepted (c : ascii) : bool :=
  Lexer.isspace c || Lexer.isalpha c || Lexer.isdigit c
  || Lexer.is_operator (Lexer.str1 c) || Lexer.is_punctuator (Lexer.str1 c)
  || Ascii.eqb c Lexer.dquote.

Definition alnum (c : ascii) : bool := Lexer.isalpha c || Lexer.isdigit c.

Definition not_quote (c : ascii) : bool := negb (Ascii.eqb c Lexer.dquote).

(** A word: a letter followed by letters and digits. *)
Definition word (v : string) : Prop :=
  exists c w, v = String c w /\ Lexer.isalpha c = true /\
              all_chars alnum w = true.

(** A number: one digit or more. *)
Definition digits (v : string) : Prop :=
  v <> "" /\ all_chars Lexer.isdigit v = true.

(** What the text of a token of each category looks like. *)
Definition well_formed (t : Token) : Prop :=
  match category t with
  | IDENTIFIER =>
      word (value t) /\ Lexer.is_keyword (value t) = false
  | KEYWORD =>
      word (value t) /\ Lexer.is_keyword (value t) = true /\
      value t <> "true" /\ value t <> "false"
  | BOOLEAN_LITERAL => value t = "true" \/ value t = "false"
  | INTEGER_LITERAL => digits (value t)
  | FLOAT_LITERAL =>
      exists a b, value t = (a ++ String "." b)%string /\
                  digits a /\ digits b
  | OPERATOR => Lexer.is_operator (value t) = true
  | PUNCTUATOR => Lexer.is_punctuator (value t) = true
  | STRING_LITERAL => all_chars not_quote (value t) = true
  | LINE_COMMENT | BLOCK_COMMENT | UNKNOWN => False
  end.

(** ** Vocabulary of the further properties *)

(** The result of an inner loop on a text with one more character in
    front. *)
Definition shift (r : option (nat * string)) : option (nat * string) :=
  match r with
  | Some (i, v) => Some (S i, v)
  | None => None
  end.

(** What every method of the parser keeps: on return the cursor has not
    moved back, has not left the vector if it was inside, and [success] is
    untouched; on a throw [success] has been cleared, unless the message is
    one of the set [E], for which it is left as it was. *)
Definition sound (tokens : list Token) (E : string -> Prop) {A} (p : M A)
    : Prop :=
  forall s,
    match p s with
    | Return _ s' =>
        current s <= current s' /\ success s' = success s /\
        (current s <= length tokens -> current s' <= length tokens)
    | Throw msg s' =>
        current s <= current s' /\
        (success s' = false \/ (E msg /\ success s' = success s))
    | OutOfBounds | OutOfFuel => True
    end.

Definition kept (tokens : list Token) (s s' : Fields) : Prop :=
  current s <= current s' /\ success s' = success s /\
  (current s <= length tokens -> current s' <= length tokens).

(** The nodes of the top level: function declarations with parallel
    parameter lists. *)
Definition is_function_declaration (n : Node) : Prop :=
  match n with
  | FunctionDeclaration _ _ args_types args_ids _ =>
      length args_types = length args_ids
  | _ => False
  end.

(** Entered on a token, a method that returns has consumed one at least. *)
Definition moves (tokens : list Token) {A} (p : M A) : Prop :=
  forall s a s',
    current s < length tokens -> p s = Return a s' -> current s < current s'.

(** A test on the current token: it never throws; answering [true] it has
    consumed that token, answering [false] it has left the parser as it
    was. *)
Definition test (tokens : list Token) (p : M bool) : Prop :=
  forall s,
    match p s with
    | Return b s' =>
        if b then current s < length tokens /\
                  s' = mkFields (current s + 1) (success s)
        else s' = s
    | OutOfBounds => True
    | Throw _ _ | OutOfFuel => False
    end.

(** A method that reads the current token first: with the cursor at or
    past the end it indexes out of bounds (or, in the model, has no fuel to
    get that far). *)
Definition needs_token (tokens : list Token) {A} (p : M A) : Prop :=
  forall s, length tokens <= current s ->
            p s = OutOfBounds \/ p s = OutOfFuel.

(** With at most [n] tokens left, the fuel is not exhausted. *)
Definition fin (tokens : list Token) (n : nat) {A} (p : M A) : Prop :=
  forall s, length tokens - current s <= n -> p s <> OutOfFuel.

(** The same for a method entered on a token. *)
Definition fin_in (tokens : list Token) (n : nat) {A} (p : M A) : Prop :=
  forall s, current s < length tokens ->
            length tokens - current s <= n -> p s <> OutOfFuel.

(** The values a method can return. *)
Definition returns {A} (Q : A -> Prop) (p : M A) : Prop :=
  forall s a s', p s = Return a s' -> Q a.

(** The message of [global_statement], the one exception not raised
    through [error]. *)
Definition unexpected_global (msg : string) : Prop :=
  msg = "Unexpected global statement encountered.".

(** No message. *)
Definition never (_ : string) : Prop := False.

(** A method that never exhausts fuel: it has no loop and calls none. *)
Definition fuel_free {A} (p : M A) : Prop := forall s, p s <> OutOfFuel.

(** A method that only inspects: it returns in the state it was called
    in, and never throws. *)
Definition stays {A} (p : M A) : Prop :=
  forall s,
    match p s with
    | Return _ s' => s' = s
    | OutOfBounds => True
    | Throw _ _ | OutOfFuel => False
    end.

(** An inspection of the current token: it returns only with the cursor
    on a token. *)
Definition looks (tokens : list Token) {A} (p : M A) : Prop :=
  forall s,
    match p s with
    | Return _ s' => s' = s /\ current s < length tokens
    | OutOfBounds => True
    | Throw _ _ | OutOfFuel => False
    end.

(** The tokens [op1 x1 op2 x2 ...] of a chain of integer operands, and the
    tree that folds them onto a first operand from the left. *)
Fixpoint chain_tokens (rest : list (string * string)) : list Token :=
  match rest with
  | [] => []
  | (op, x) :: r =>
      mkToken OPERATOR op :: mkToken INTEGER_LITERAL x :: chain_tokens r
  end.

Fixpoint chain_tree (e : Node) (rest : list (string * string)) : Node :=
  match rest with
  | [] => e
  | (op, x) :: r => chain_tree (BinaryOperation e op (IntegerLiteral x)) r
  end.

Definition additive (p : string * string) : Prop :=
  (fst p = "+" \/ fst p = "-") /\ digits (snd p).

(** * Properties *)

(** ** Fuel *)

Lemma le_refl {A} (p : M A) : le_M p p.
Proof. intros s. right. reflexivity. Qed.

Lemma le_fuel {A} (q : M A) : le_M out_of_fuel q.
Proof. intros s. left. reflexivity. Qed.

Lemma le_bind {A B} (p q : M A) (k k' : A -> M B) :
  le_M p q -> (forall a, le_M (k a) (k' a)) ->
  le_M (bind p k) (bind q k').
Proof.
  intros P K s. unfold bind.
  destruct (P s) as [E | E]; rewrite E; [left; reflexivity|].
  destruct (q s) as [a s' | msg s' | |]; try (right; reflexivity).
  apply K.
Qed.

Lemma le_enough {A} (p q : M A) s r :
  le_M p q -> p s = r -> r <> OutOfFuel -> q s = r.
Proof.
  intros L E N. destruct (L s) as [F | F]; congruence.
Qed.

Ltac mono_step :=
  first
    [ apply le_refl
    | apply le_fuel
    | match goal with H : _ |- _ => apply H; lia end
    | match goal with H : le_M ?p ?q |- le_M ?p ?q => exact H end
    | apply le_bind; [| intros ?]
    | match goal with
      | |- le_M (if ?b then _ else _) (if ?b then _ else _) => destruct b
      end ].

Section Fuel.

Variable tokens : list Token.

Lemma binary_loop_mono values operand operand' :
  le_M operand operand' ->
  forall n m e, n <= m ->
  le_M (binary_loop tokens values operand n e)
       (binary_loop tokens values operand' m e).
Proof.
  intros O. induction n as [|n IH]; intros [|m] e L; try lia;
    cbn [binary_loop]; repeat mono_step.
Qed.

Lemma cast_loop_mono : forall n m e, n <= m ->
  le_M (cast_loop tokens n e) (cast_loop tokens m e).
Proof.
  induction n as [|n IH]; intros [|m] e L; try lia;
    cbn [cast_loop]; repeat mono_step.
Qed.

Lemma args_loop_mono expr expr' :
  le_M expr expr' ->
  forall n m args, n <= m ->
  le_M (args_loop tokens expr n args) (args_loop tokens expr' m args).
Proof.
  intros O. induction n as [|n IH]; intros [|m] args L; try lia;
    cbn [args_loop]; repeat mono_step.
Qed.

Lemma cascade_mono : forall n m, n <= m ->
  le_M (expression tokens n) (expression tokens m) /\
  le_M (equality tokens n) (equality tokens m) /\
  le_M (comparison tokens n) (comparison tokens m) /\
  le_M (cast tokens n) (cast tokens m) /\
  le_M (term tokens n) (term tokens m) /\
  le_M (factor tokens n) (factor tokens m) /\
  le_M (remainder tokens n) (remainder tokens m) /\
  le_M (unary tokens n) (unary tokens m) /\
  le_M (primary tokens n) (primary tokens m).
Proof.
  induction n as [|n IH]; intros m L.
  - repeat split; apply le_fuel.
  - destruct m as [|m]; [lia|].
    destruct (IH m ltac:(lia)) as (E & Q & C & K & T & F & R & U & P).
    assert (L' : n <= m) by lia.
    repeat split;
      cbn [expression equality comparison cast term factor remainder unary
           primary];
      repeat first
        [ apply binary_loop_mono; [assumption | exact L']
        | apply cast_loop_mono; exact L'
        | apply args_loop_mono; [assumption | exact L']
        | mono_step ].
Qed.

Lemma expression_mono n m :
  n <= m -> le_M (expression tokens n) (expression tokens m).
Proof. intros L. apply (cascade_mono n m L). Qed.

Lemma variable_declaration_mono n m :
  n <= m ->
  le_M (variable_declaration tokens n) (variable_declaration tokens m).
Proof.
  intros L. pose proof (expression_mono n m L).
  unfold variable_declaration. repeat mono_step.
Qed.

Lemma variable_assignment_mono n m :
  n <= m ->
  le_M (variable_assignment tokens n) (variable_assignment tokens m).
Proof.
  intros L. pose proof (expression_mono n m L).
  unfold variable_assignment. repeat mono_step.
Qed.

Lemma return_statement_mono n m :
  n <= m -> le_M (return_statement tokens n) (return_statement tokens m).
Proof.
  intros L. pose proof (expression_mono n m L).
  unfold return_statement. repeat mono_step.
Qed.

Lemma function_call_mono n m :
  n <= m -> le_M (function_call tokens n) (function_call tokens m).
Proof.
  intros L. pose proof (expression_mono n m L).
  unfold function_call.
  repeat first [ apply args_loop_mono; [assumption | exact L] | mono_step ].
Qed.

Lemma scope_loop_mono stmt stmt' :
  le_M stmt stmt' ->
  forall n m ast, n <= m ->
  le_M (scope_loop tokens stmt n ast) (scope_loop tokens stmt' m ast).
Proof.
  intros O. induction n as [|n IH]; intros [|m] ast L; try lia;
    cbn [scope_loop]; repeat mono_step.
Qed.

Lemma statements_mono : forall n m, n <= m ->
  le_M (statement tokens n) (statement tokens m) /\
  le_M (scope_declaration tokens n) (scope_declaration tokens m) /\
  le_M (conditional_statement tokens n) (conditional_statement tokens m) /\
  le_M (while_loop_statement tokens n) (while_loop_statement tokens m).
Proof.
  induction n as [|n IH]; intros m L.
  - repeat split; apply le_fuel.
  - destruct m as [|m]; [lia|].
    destruct (IH m ltac:(lia)) as (S & B & C & W).
    assert (L' : n <= m) by lia.
    pose proof (expression_mono n m L') as E.
    repeat split;
      cbn [statement scope_declaration conditional_statement
           while_loop_statement]; cbv zeta;
      repeat first
        [ apply scope_loop_mono; [assumption | exact L']
        | apply variable_declaration_mono; exact L'
        | apply variable_assignment_mono; exact L'
        | apply return_statement_mono; exact L'
        | apply function_call_mono; exact L'
        | mono_step ].
Qed.

Lemma statement_mono n m :
  n <= m -> le_M (statement tokens n) (statement tokens m).
Proof. intros L. apply (statements_mono n m L). Qed.

Lemma params_loop_mono : forall n m tys ids, n <= m ->
  le_M (params_loop tokens n tys ids) (params_loop tokens m tys ids).
Proof.
  induction n as [|n IH]; intros [|m] tys ids L; try lia;
    cbn [params_loop]; repeat mono_step.
Qed.

Lemma function_declaration_mono n m :
  n <= m ->
  le_M (function_declaration tokens n) (function_declaration tokens m).
Proof.
  intros L. pose proof (statement_mono n m L).
  unfold function_declaration.
  repeat first [ apply params_loop_mono; exact L | mono_step ].
Qed.

Lemma global_statement_mono n m :
  n <= m -> le_M (global_statement tokens n) (global_statement tokens m).
Proof.
  intros L. pose proof (function_declaration_mono n m L).
  unfold global_statement. cbv zeta. repeat mono_step.
Qed.

Lemma parse_mono : forall n m, n <= m ->
  le_M (parse tokens n) (parse tokens m).
Proof.
  unfold parse. generalize (@nil Node).
  intros l n; revert l. induction n as [|n IH]; intros l [|m] L; try lia;
    cbn [parse_loop];
    repeat first [ apply global_statement_mono; lia | mono_step ].
Qed.

End Fuel.

(** The outcome of the parser on a token vector does not depend on the
    budget, once it is large enough for an outcome to be reached. *)
Lemma Parser_fuel tokens fuel r :
  Parser tokens = r -> r <> OutOfFuel -> budget tokens <= fuel ->
  parse tokens fuel initial = r.
Proof.
  intros E N L. apply (le_enough (parse tokens (budget tokens))); auto.
  apply parse_mono, L.
Qed.

Lemma expression_fuel tokens n m s r :
  expression tokens n s = r -> r <> OutOfFuel -> n <= m ->
  expression tokens m s = r.
Proof.
  intros E N L. apply (le_enough (expression tokens n)); auto.
  apply expression_mono, L.
Qed.

Lemma statement_fuel tokens n m s r :
  statement tokens n s = r -> r <> OutOfFuel -> n <= m ->
  statement tokens m s = r.
Proof.
  intros E N L. apply (le_enough (statement tokens n)); auto.
  apply statement_mono, L.
Qed.

(** ** Tokenizer *)

(** The tokenizer always comes to an end: the inner loops never use up the
    length of the text, and the main loop never uses up its fuel. *)
Lemma extend_total P raw : forall fuel i v,
  String.length raw <= i + 1 + fuel ->
  exists i' v', Lexer.extend P raw fuel i v = Some (i', v') /\ i <= i'.
Proof.
  induction fuel as [|fuel IH]; intros i v L; simpl.
  - destruct (Nat.ltb_spec (i + 1) (String.length raw)) as [N | N]; [lia|].
    simpl. exists i, v. split; [reflexivity | lia].
  - destruct ((i + 1 <? String.length raw)%nat
              && P v (Lexer.char_at raw (i + 1))).
    + destruct (IH (i + 1) (Lexer.push v (Lexer.char_at raw (i + 1))))
        as (i' & v' & E & I); [lia|].
      exists i', v'. split; [exact E | lia].
    + exists i, v. split; [reflexivity | lia].
Qed.

Lemma lex_loop_total : forall fuel raw i tokens,
  0 < fuel -> String.length raw < i + fuel ->
  Lexer.lex_loop fuel raw i tokens <> Lexer.LexFuel.
Proof.
  induction fuel as [|fuel IH]; intros raw i tokens F L; [lia|].
  cbn [Lexer.lex_loop]. cbv zeta.
  destruct (Nat.ltb_spec i (String.length raw)) as [N | N];
    [|discriminate]. cbn [negb].
  assert (X : forall P v k,
            (forall i' v', i <= i' ->
                           k i' v' <> Lexer.LexFuel) ->
            Lexer.with_extend
              (Lexer.extend P raw (String.length raw) i v) k
            <> Lexer.LexFuel).
  { intros P v k K.
    destruct (extend_total P raw (String.length raw) i v) as (i' & v' & E & I);
      [lia|].
    rewrite E. apply K, I. }
  destruct (Lexer.isspace _); [apply IH; lia|].
  destruct (Lexer.isalpha _); [apply X; intros; apply IH; lia|].
  destruct (Lexer.isdigit _).
  { apply X. intros i1 v1 I1.
    destruct (_ && _); [|apply IH; lia].
    destruct (extend_total Lexer.digit_next raw (String.length raw) (i1 + 1)
                (Lexer.push v1 (Lexer.char_at raw (i1 + 1))))
      as (i2 & v2 & E & I2); [lia|].
    rewrite E. apply IH; lia. }
  destruct (Lexer.is_operator _); [apply X; intros; apply IH; lia|].
  destruct (Lexer.is_punctuator _); [apply X; intros; apply IH; lia|].
  destruct (Ascii.eqb _ _); [apply X; intros; apply IH; lia|].
  discriminate.
Qed.

Lemma lex_total raw : Lexer.lex raw <> Lexer.LexFuel.
Proof. apply lex_loop_total; lia. Qed.


(** Pieces of text: appending one character, and the text from a
    position on. *)
Lemma push_append v c r :
  (Lexer.push v c ++ r = v ++ String c r)%string.
Proof.
  unfold Lexer.push. induction v as [|a v IH]; simpl; [reflexivity|].
  rewrite IH. reflexivity.
Qed.

Lemma append_empty v : (v ++ "" = v)%string.
Proof. induction v as [|a v IH]; simpl; [|rewrite IH]; reflexivity. Qed.

Lemma substring_none raw : forall i, substring i 0 raw = "".
Proof.
  induction raw as [|a raw IH]; intros [|i]; simpl; try reflexivity.
  apply IH.
Qed.

Lemma substring_step raw : forall i k,
  i < String.length raw ->
  substring i (S k) raw =
  String (Lexer.char_at raw i) (substring (i + 1) k raw).
Proof.
  induction raw as [|a raw IH]; intros i k L; simpl in L; [lia|].
  destruct i as [|i].
  - reflexivity.
  - simpl. rewrite (IH i k) by lia. reflexivity.
Qed.

(** The loop of the string branch, when no closing quote follows: it stops
    on the last character of the text, having collected all of it. *)
Lemma extend_to_end raw : forall fuel i v,
  i < String.length raw ->
  (forall j, i < j < String.length raw ->
             Lexer.char_at raw j <> Lexer.dquote) ->
  String.length raw <= i + 1 + fuel ->
  Lexer.extend Lexer.string_next raw fuel i v =
  Some (String.length raw - 1,
        (v ++ substring (i + 1) (String.length raw - (i + 1)) raw)%string).
Proof.
  induction fuel as [|fuel IH]; intros i v L Q F.
  - assert (E : i + 1 = String.length raw) by lia.
    simpl. rewrite E, Nat.ltb_irrefl. simpl.
    rewrite Nat.sub_diag, substring_none, append_empty.
    f_equal. f_equal. lia.
  - simpl. destruct (Nat.ltb_spec (i + 1) (String.length raw)) as [N | N].
    + assert (C : Lexer.string_next v (Lexer.char_at raw (i + 1)) = true).
      { unfold Lexer.string_next.
        destruct (Ascii.eqb_spec (Lexer.char_at raw (i + 1)) Lexer.dquote) as [D | D];
          [|reflexivity].
        exfalso. apply (Q (i + 1)); [lia | exact D]. }
      rewrite C. simpl.
      rewrite (IH (i + 1)); [| lia | intros j J; apply Q; lia | lia].
      replace (String.length raw - (i + 1))
        with (S (String.length raw - (i + 1 + 1))) by lia.
      rewrite (substring_step raw (i + 1)) by lia.
      rewrite push_append. reflexivity.
    + assert (E : i + 1 = String.length raw) by lia.
      simpl. rewrite E, Nat.sub_diag, substring_none, append_empty.
      f_equal. f_equal. lia.
Qed.

(** C1 (as the code has it). When the main loop stands on an opening
    quote that no quote follows, the pass does not fail: the string branch
    stops at the end of the text, pushes a STRING_LITERAL holding everything
    after the opening quote, and the loop ends. *)
Theorem unterminated_string_is_a_token raw i tokens fuel :
  i < String.length raw ->
  Lexer.char_at raw i = Lexer.dquote ->
  (forall j, i < j < String.length raw ->
             Lexer.char_at raw j <> Lexer.dquote) ->
  2 <= fuel ->
  Lexer.lex_loop fuel raw i tokens =
  Lexer.LexOk
    (tokens ++
     [mkToken STRING_LITERAL
        (substring (i + 1) (String.length raw - (i + 1)) raw)]).
Proof.
  intros L D Q F.
  destruct fuel as [|[|fuel]]; try lia.
  cbn [Lexer.lex_loop].
  destruct (Nat.ltb_spec i (String.length raw)) as [_ | N]; [|lia].
  cbn [negb]. rewrite D.
  change (Lexer.isspace Lexer.dquote) with false.
  change (Lexer.isalpha Lexer.dquote) with false.
  change (Lexer.isdigit Lexer.dquote) with false.
  change (Lexer.is_operator (Lexer.str1 Lexer.dquote)) with false.
  change (Lexer.is_punctuator (Lexer.str1 Lexer.dquote)) with false.
  change (Ascii.eqb Lexer.dquote Lexer.dquote) with true.
  cbv iota.
  rewrite (extend_to_end raw (String.length raw) i "" L Q) by lia.
  unfold Lexer.with_extend.
  destruct (Nat.ltb_spec (String.length raw - 1 + 1 + 1) (String.length raw))
    as [N | _]; [lia|].
  reflexivity.
Qed.

Lemma unterminated_string_is_a_token_witness :
  Lexer.lex (String Lexer.dquote "ab") =
  Lexer.LexOk [mkToken STRING_LITERAL "ab"].
Proof.
  apply (unterminated_string_is_a_token (String Lexer.dquote "ab") 0 [] 4).
  - simpl; lia.
  - reflexivity.
  - intros j J. simpl in J.
    destruct j as [|[|[|j]]]; try lia; vm_compute; discriminate.
  - lia.
Defined.

(** C1 (as stated, fails). The text made of a quote and [ab] lexes to one
    STRING_LITERAL; there is no lexical error. *)
Lemma unterminated_string_counterexample :
  Lexer.lex (String Lexer.dquote "ab") =
    Lexer.LexOk [mkToken STRING_LITERAL "ab"] /\
  ~ (exists msg, Lexer.lex (String Lexer.dquote "ab") = Lexer.LexError msg).
Proof.
  split; [vm_compute; reflexivity|].
  intros [msg E]. vm_compute in E. discriminate.
Qed.

(** ** Parser: cursor primitives *)

Lemma at_end_spec tokens s :
  at_end tokens s = Return (length tokens <=? current s)%nat s.
Proof. reflexivity. Qed.

Lemma peek_spec tokens s :
  peek tokens s =
  match nth_error tokens (current s) with
  | Some t => Return t s
  | None => OutOfBounds
  end.
Proof. reflexivity. Qed.

Lemma next_spec tokens s :
  next tokens s =
  if (length tokens <=? current s)%nat then peek tokens s
  else match nth_error tokens (current s + 1) with
       | Some t => Return t s
       | None => OutOfBounds
       end.
Proof.
  unfold next, bind. rewrite at_end_spec.
  destruct (length tokens <=? current s)%nat; reflexivity.
Qed.

(** C3 (fails on the code). With the cursor on the last token [next] is
    not at the end, so it indexes [tokens[current + 1]], one past the last
    element; at the end it indexes [tokens[current]] through [peek]. No
    sentinel is returned in either case. The text ["void f"] reaches the
    first case through [match_next] in [global_statement]. *)
Theorem next_on_last_token_out_of_bounds :
  (forall tokens s,
     current s + 1 = length tokens -> next tokens s = OutOfBounds) /\
  (forall tokens s,
     length tokens <= current s -> next tokens s = OutOfBounds) /\
  next [mkToken IDENTIFIER "f"] initial = OutOfBounds /\
  front_end "void f" = Parsed OutOfBounds.
Proof.
  split; [|split; [|split; vm_compute; reflexivity]].
  - intros tokens s H. rewrite next_spec.
    destruct (Nat.leb_spec (length tokens) (current s)) as [L | L]; [lia|].
    assert (E : nth_error tokens (current s + 1) = None)
      by (apply nth_error_None; lia).
    rewrite E. reflexivity.
  - intros tokens s H. rewrite next_spec, peek_spec.
    destruct (Nat.leb_spec (length tokens) (current s)) as [L | L]; [|lia].
    assert (E : nth_error tokens (current s) = None)
      by (apply nth_error_None; lia).
    rewrite E. reflexivity.
Qed.

Lemma next_on_last_token_out_of_bounds_witness :
  next [mkToken IDENTIFIER "f"] initial = OutOfBounds.
Proof.
  apply (proj1 next_on_last_token_out_of_bounds [mkToken IDENTIFIER "f"] initial).
  reflexivity.
Defined.

(** ** Parser: whole programs *)

(** C2 (fails on the code). On [void f() { if (true) { return; }] the
    inner block ends on the last token; [conditional_statement] then tests
    [peek().value == "else"] with the cursor past the end, which indexes
    the token vector out of bounds. No parse error is raised, whatever the
    fuel. *)
Theorem unbalanced_brace_reads_out_of_bounds :
  front_end "void f() { if (true) { return; }" = Parsed OutOfBounds /\
  length (tokens_of "void f() { if (true) { return; }") = 13 /\
  conditional_statement (tokens_of "void f() { if (true) { return; }") 32
    (mkFields 6 true) = OutOfBounds /\
  peek (tokens_of "void f() { if (true) { return; }") (mkFields 13 true)
    = OutOfBounds /\
  (forall fuel,
     budget (tokens_of "void f() { if (true) { return; }") <= fuel ->
     parse (tokens_of "void f() { if (true) { return; }") fuel initial =
     OutOfBounds).
Proof.
  repeat split; try (vm_compute; reflexivity).
  intros fuel L. apply Parser_fuel; [vm_compute; reflexivity | discriminate | exact L].
Qed.

Lemma unbalanced_brace_reads_out_of_bounds_witness :
  parse (tokens_of "void f() { if (true) { return; }") 1000 initial =
  OutOfBounds.
Proof.
  apply (proj2 (proj2 (proj2 (proj2 unbalanced_brace_reads_out_of_bounds)))).
  vm_compute. lia.
Defined.

(** C4 (fails on the code). [x = 5;] at top level does fail to parse, but
    [global_statement] throws without going through [error], so the
    [success] field is still [true] when the exception leaves the parser,
    whatever the fuel. [error], which the other failures go through, does
    clear the field. *)
Theorem top_level_assignment_throws_with_success_set :
  front_end "x = 5;" =
    Parsed (Throw "Unexpected global statement encountered." (mkFields 1 true)) /\
  (forall fuel,
     budget (tokens_of "x = 5;") <= fuel ->
     parse (tokens_of "x = 5;") fuel initial =
     Throw "Unexpected global statement encountered." (mkFields 1 true)) /\
  (forall msg s,
     @error Node msg s = Throw msg (mkFields (current s) false)).
Proof.
  repeat split; try (vm_compute; reflexivity).
  intros fuel L. apply Parser_fuel; [vm_compute; reflexivity | discriminate | exact L].
Qed.

Lemma top_level_assignment_throws_with_success_set_witness :
  parse (tokens_of "x = 5;") 1000 initial =
  Throw "Unexpected global statement encountered." (mkFields 1 true).
Proof.
  apply (proj1 (proj2 top_level_assignment_throws_with_success_set)).
  vm_compute. lia.
Defined.

(** C10. The empty text lexes to the empty token vector, and the parser on
    the empty vector returns the empty tree with [success] still [true],
    whatever the fuel. *)
Theorem empty_input :
  Lexer.lex "" = Lexer.LexOk [] /\
  (forall fuel, parse [] fuel initial = Return [] initial) /\
  Parser [] = Return [] (mkFields 0 true) /\
  front_end "" = Parsed (Return [] (mkFields 0 true)).
Proof.
  repeat split; try (vm_compute; reflexivity).
  intros [|fuel]; reflexivity.
Qed.

(** ** Parser: declarations *)

(** [match] on a current token whose text is none of [values]. *)
Lemma match_miss tokens values s t :
  nth_error tokens (current s) = Some t ->
  Lexer.mem (value t) values = false ->
  match_ tokens values s = Return false s.
Proof.
  intros P. induction values as [|v values IH]; simpl; intros N.
  - reflexivity.
  - unfold bind. rewrite peek_spec, P.
    destruct (String.eqb (value t) v); [discriminate|]. apply IH, N.
Qed.

(** No keyword of the tokenizer is a type name of [match_key]: on a
    KEYWORD token the lookahead answers [false] and leaves the cursor. *)
Lemma match_key_rejects_keywords tokens s kw :
  In kw Lexer.keywords ->
  nth_error tokens (current s) = Some (mkToken KEYWORD kw) ->
  match_key tokens s = Return false s.
Proof.
  intros K P.
  unfold match_key, peek_category_is, bind. rewrite peek_spec, P. simpl.
  rewrite peek_spec, P. simpl.
  apply (match_miss tokens type_names s _ P). simpl.
  unfold Lexer.keywords in K; simpl in K.
  repeat (destruct K as [K | K]; [subst kw; reflexivity|]).
  contradiction.
Qed.

(** C5. As a statement of a function body, [let x = 5;] does not parse:
    [let] is a KEYWORD that [match_key] never accepts, so the statement
    falls through to [primary], which reports the token. [int32 x = 5;],
    whose first token is an IDENTIFIER, is a [VariableDeclaration] with
    type name [int32]. *)
Theorem let_rejected_identifier_type_accepted :
  Lexer.lex "let x = 5;" =
    Lexer.LexOk [mkToken KEYWORD "let"; mkToken IDENTIFIER "x";
                 mkToken OPERATOR "="; mkToken INTEGER_LITERAL "5";
                 mkToken PUNCTUATOR ";"] /\
  (forall tokens s,
     nth_error tokens (current s) = Some (mkToken KEYWORD "let") ->
     match_key tokens s = Return false s) /\
  statement (tokens_of "let x = 5;") 32 initial =
    Throw "Unexpected token 'let'" (mkFields 0 false) /\
  front_end "void f() { let x = 5; }" =
    Parsed (Throw "Unexpected token 'let'" (mkFields 5 false)) /\
  Lexer.lex "int32 x = 5;" =
    Lexer.LexOk [mkToken IDENTIFIER "int32"; mkToken IDENTIFIER "x";
                 mkToken OPERATOR "="; mkToken INTEGER_LITERAL "5";
                 mkToken PUNCTUATOR ";"] /\
  statement (tokens_of "int32 x = 5;") 32 initial =
    Return (VariableDeclaration "int32" "x" (IntegerLiteral "5"))
           (mkFields 5 true) /\
  front_end "void f() { int32 x = 5; }" =
    Parsed (Return
      [FunctionDeclaration "void" "f" [] []
         (ScopeDeclaration
            [VariableDeclaration "int32" "x" (IntegerLiteral "5")])]
      (mkFields 11 true)).
Proof.
  repeat split; try (vm_compute; reflexivity).
  intros tokens s P. apply (match_key_rejects_keywords tokens s "let"); [|exact P].
  simpl. auto.
Qed.

Lemma let_rejected_identifier_type_accepted_witness :
  match_key (tokens_of "let x = 5;") initial = Return false initial.
Proof.
  apply (proj1 (proj2 let_rejected_identifier_type_accepted)).
  vm_compute. reflexivity.
Defined.

(** ** Parser: stepping through the code *)

Lemma bind_Return {A B} (m : M A) (k : A -> M B) s a s' :
  m s = Return a s' -> bind m k s = k a s'.
Proof. intros E. unfold bind. rewrite E. reflexivity. Qed.

Lemma mem_false_in v l x :
  Lexer.mem v l = false -> In x l -> String.eqb v x = false.
Proof.
  induction l as [|e l IH]; simpl; intros N I; [contradiction|].
  destruct (String.eqb v e) eqn:E; [discriminate|].
  destruct I as [I | I]; [subst; exact E | auto].
Qed.

Lemma mem_false_incl v l l' :
  Lexer.mem v l = false -> incl l' l -> Lexer.mem v l' = false.
Proof.
  intros N I. induction l' as [|x l' IH]; [reflexivity|].
  simpl. rewrite (mem_false_in v l x N (I x (or_introl eq_refl))).
  apply IH. intros y Y. apply I. right. exact Y.
Qed.

Ltac incl_continuing :=
  let x := fresh in
  let X := fresh in
  intros x X; simpl in X; unfold continuing; simpl;
  repeat (destruct X as [X | X]; [subst x; tauto|]); contradiction.

Section Steps.

Variable tokens : list Token.
Variables (s : Fields) (t : Token).
Hypothesis at_t : nth_error tokens (current s) = Some t.

Lemma at_end_false : at_end tokens s = Return false s.
Proof.
  rewrite at_end_spec.
  assert (L : current s < length tokens)
    by (apply nth_error_Some; rewrite at_t; discriminate).
  destruct (Nat.leb_spec (length tokens) (current s)); [lia | reflexivity].
Qed.

Lemma advance_spec :
  advance tokens s = Return t (mkFields (current s + 1) (success s)).
Proof.
  unfold advance. rewrite (bind_Return _ _ _ _ _ at_end_false).
  unfold bind, get_current, set_current, previous; simpl.
  rewrite Nat.add_1_r. unfold bind, get_current, token_at; simpl.
  rewrite at_t. reflexivity.
Qed.

Lemma match_hit values :
  Lexer.mem (value t) values = true ->
  match_ tokens values s = Return true (mkFields (current s + 1) (success s)).
Proof.
  induction values as [|v values IH]; simpl; intros N; [discriminate|].
  unfold bind at 1. rewrite peek_spec, at_t.
  destruct (String.eqb (value t) v).
  - rewrite (bind_Return _ _ _ _ _ advance_spec). reflexivity.
  - apply IH, N.
Qed.

Lemma peek_category_is_spec c :
  peek_category_is tokens c s = Return (Category_eqb (category t) c) s.
Proof.
  unfold peek_category_is, bind. rewrite peek_spec, at_t. reflexivity.
Qed.

Lemma peek_value_is_spec v :
  peek_value_is tokens v s = Return (String.eqb (value t) v) s.
Proof.
  unfold peek_value_is, bind. rewrite peek_spec, at_t. reflexivity.
Qed.

Lemma consume_hit type message :
  value t = type ->
  consume tokens type message s =
  Return t (mkFields (current s + 1) (success s)).
Proof.
  intros E. unfold consume.
  rewrite (bind_Return _ _ _ _ _ (peek_value_is_spec type)).
  rewrite E, String.eqb_refl.
  unfold bind, get_current, token_at, set_current; simpl.
  rewrite at_t. reflexivity.
Qed.

Lemma match_next_spec u values :
  nth_error tokens (current s + 1) = Some u ->
  match_next tokens values s = Return (Lexer.mem (value u) values) s.
Proof.
  intros N.
  assert (X : next tokens s = Return u s).
  { rewrite next_spec.
    assert (L : current s + 1 < length tokens)
      by (apply nth_error_Some; rewrite N; discriminate).
    destruct (Nat.leb_spec (length tokens) (current s)); [lia|].
    rewrite N. reflexivity. }
  induction values as [|v values IH]; simpl; [reflexivity|].
  rewrite (bind_Return _ _ _ _ _ X).
  destruct (String.eqb (value u) v); [reflexivity | exact IH].
Qed.

(** On a token that does not continue an expression every loop of the
    cascade is left at once, with the expression built so far. *)
Hypothesis stop : continues_expression t = false.

Lemma binary_loop_stops values operand fuel e :
  incl values continuing ->
  binary_loop tokens values operand fuel e s = Return e s.
Proof.
  intros I.
  assert (E : match_ tokens values s = Return false s).
  { apply (match_miss tokens values s t at_t).
    apply (mem_false_incl _ continuing); assumption. }
  destruct fuel; cbn [binary_loop]; rewrite (bind_Return _ _ _ _ _ E);
    reflexivity.
Qed.

Lemma cast_loop_stops fuel e : cast_loop tokens fuel e s = Return e s.
Proof.
  assert (E : match_ tokens ["as"] s = Return false s).
  { apply (match_miss tokens ["as"] s t at_t).
    apply (mem_false_incl _ continuing); [exact stop|].
    intros x [<- | []]; simpl; tauto. }
  destruct fuel; cbn [cast_loop]; rewrite (bind_Return _ _ _ _ _ E);
    reflexivity.
Qed.

(** What [cast] returns in front of such a token is what [expression]
    returns; likewise from [term], whose result [cast] leaves unwrapped. *)
Lemma expression_of_cast f s0 e :
  cast tokens f s0 = Return e s ->
  expression tokens (S (S (S f))) s0 = Return e s.
Proof.
  intros C.
  assert (M0 : comparison tokens (S f) s0 = Return e s).
  { cbn [comparison]. rewrite (bind_Return _ _ _ _ _ C).
    apply binary_loop_stops. incl_continuing. }
  cbn [expression equality]. rewrite (bind_Return _ _ _ _ _ M0).
  apply binary_loop_stops. incl_continuing.
Qed.

Lemma cast_of_term f s0 e :
  term tokens f s0 = Return e s -> cast tokens (S f) s0 = Return e s.
Proof.
  intros T0. cbn [cast]. rewrite (bind_Return _ _ _ _ _ T0).
  apply cast_loop_stops.
Qed.

End Steps.

Lemma binary_loop_eq tokens values operand fuel e :
  binary_loop tokens values operand (S fuel) e =
  bind (match_ tokens values) (fun m =>
    if m then
      bind (previous tokens) (fun op =>
      bind operand (fun right =>
      binary_loop tokens values operand fuel
        (BinaryOperation e (value op) right)))
    else ret e).
Proof. reflexivity. Qed.

Lemma cast_loop_eq tokens fuel e :
  cast_loop tokens (S fuel) e =
  bind (match_ tokens ["as"]) (fun m =>
    if m then
      bind (advance tokens) (fun t =>
      cast_loop tokens fuel (CastOperation e (value t)))
    else ret e).
Proof. reflexivity. Qed.

(** [run] executes the next call when it touches concrete tokens only;
    [by_fact] uses a result established before. *)
Ltac run := erewrite bind_Return by (vm_compute; reflexivity); cbv beta iota.
Ltac by_fact F := rewrite (bind_Return _ _ _ _ _ F); cbv beta iota.

(** ** Parser: expressions *)

(** The precedence of [*] over [+] where the cascade is defined:
    [1 + 2 * 3] parses to [1 + (2 * 3)] in front of any token that
    does not continue the expression (a [;], a [)], ...), and with any
    sufficient fuel, [expression] returns that tree with the cursor on the
    token that follows; the tree is not [(1 + 2) * 3]. *)
Theorem multiplication_binds_tighter :
  Lexer.lex "1 + 2 * 3" =
    Lexer.LexOk [mkToken INTEGER_LITERAL "1"; mkToken OPERATOR "+";
                 mkToken INTEGER_LITERAL "2"; mkToken OPERATOR "*";
                 mkToken INTEGER_LITERAL "3"] /\
  (forall t rest b fuel,
     continues_expression t = false -> 9 <= fuel ->
     expression (tokens_of "1 + 2 * 3" ++ t :: rest) fuel (mkFields 0 b) =
       Return (BinaryOperation (IntegerLiteral "1") "+"
                 (BinaryOperation (IntegerLiteral "2") "*"
                    (IntegerLiteral "3")))
              (mkFields 5 b) /\
     forall s',
       expression (tokens_of "1 + 2 * 3" ++ t :: rest) fuel (mkFields 0 b) <>
       Return (BinaryOperation
                 (BinaryOperation (IntegerLiteral "1") "+"
                    (IntegerLiteral "2"))
                 "*" (IntegerLiteral "3")) s') /\
  front_end "void f() { return 1 + 2 * 3; }" =
    Parsed (Return
      [FunctionDeclaration "void" "f" [] []
         (ScopeDeclaration
            [ReturnStatement
               (BinaryOperation (IntegerLiteral "1") "+"
                  (BinaryOperation (IntegerLiteral "2") "*"
                     (IntegerLiteral "3")))])]
      (mkFields 13 true)).
Proof.
  split; [vm_compute; reflexivity|].
  split; [|vm_compute; reflexivity].
  intros t rest b fuel H F.
  change (tokens_of "1 + 2 * 3") with
    [mkToken INTEGER_LITERAL "1"; mkToken OPERATOR "+";
     mkToken INTEGER_LITERAL "2"; mkToken OPERATOR "*";
     mkToken INTEGER_LITERAL "3"].
  simpl app. set (T := _ :: _).
  assert (P : nth_error T (current (mkFields 5 b)) = Some t) by reflexivity.
  pose proof (fun v o f e I => binary_loop_stops T _ t P H v o f e I) as X.
  assert (R4 : remainder T 3 (mkFields 4 b) =
               Return (IntegerLiteral "3") (mkFields 5 b)).
  { cbn [remainder]. run. apply X. incl_continuing. }
  assert (F2 : factor T 4 (mkFields 2 b) =
               Return (BinaryOperation (IntegerLiteral "2") "*"
                         (IntegerLiteral "3")) (mkFields 5 b)).
  { cbn [factor]. run. rewrite binary_loop_eq. run. run. by_fact R4.
    apply X. incl_continuing. }
  assert (T0 : term T 5 (mkFields 0 b) =
               Return (BinaryOperation (IntegerLiteral "1") "+"
                         (BinaryOperation (IntegerLiteral "2") "*"
                            (IntegerLiteral "3"))) (mkFields 5 b)).
  { cbn [term]. run. rewrite binary_loop_eq. run. run. by_fact F2.
    apply X. incl_continuing. }
  pose proof (expression_of_cast T _ t P H _ _ _
                (cast_of_term T _ t P H _ _ _ T0)) as E.
  apply (expression_fuel T 9 fuel) in E; [|discriminate|exact F].
  split; [exact E|]. intros s'. rewrite E. discriminate.
Qed.

(** The binding of [as] where the cascade is defined: [a + b as int32]
    parses to the cast of the sum, [cast] taking the
    whole result of [term] as the operand of the [as] suffix. The tree is
    returned in front of any token that does not continue the expression,
    with any sufficient fuel. Under [<] and [==] the suffixes stay with the
    operand on their left. *)
Theorem cast_wraps_the_sum :
  Lexer.lex "a + b as int32" =
    Lexer.LexOk [mkToken IDENTIFIER "a"; mkToken OPERATOR "+";
                 mkToken IDENTIFIER "b"; mkToken IDENTIFIER "as";
                 mkToken IDENTIFIER "int32"] /\
  (forall t rest b fuel,
     continues_expression t = false -> 9 <= fuel ->
     expression (tokens_of "a + b as int32" ++ t :: rest) fuel (mkFields 0 b) =
       Return (CastOperation
                 (BinaryOperation (VariableCall "a") "+" (VariableCall "b"))
                 "int32")
              (mkFields 5 b)) /\
  front_end "void f() { return a + b as int32; }" =
    Parsed (Return
      [FunctionDeclaration "void" "f" [] []
         (ScopeDeclaration
            [ReturnStatement
               (CastOperation
                  (BinaryOperation (VariableCall "a") "+" (VariableCall "b"))
                  "int32")])]
      (mkFields 13 true)) /\
  front_end "void f() { return a < b as int32 as int64; }" =
    Parsed (Return
      [FunctionDeclaration "void" "f" [] []
         (ScopeDeclaration
            [ReturnStatement
               (BinaryOperation (VariableCall "a") "<"
                  (CastOperation (CastOperation (VariableCall "b") "int32")
                     "int64"))])]
      (mkFields 15 true)) /\
  front_end "void f() { return a == b as int32; }" =
    Parsed (Return
      [FunctionDeclaration "void" "f" [] []
         (ScopeDeclaration
            [ReturnStatement
               (BinaryOperation (VariableCall "a") "=="
                  (CastOperation (VariableCall "b") "int32"))])]
      (mkFields 13 true)).
Proof.
  split; [vm_compute; reflexivity|].
  split; [|repeat split; vm_compute; reflexivity].
  intros t rest b fuel H F.
  change (tokens_of "a + b as int32") with
    [mkToken IDENTIFIER "a"; mkToken OPERATOR "+"; mkToken IDENTIFIER "b";
     mkToken IDENTIFIER "as"; mkToken IDENTIFIER "int32"].
  simpl app. set (T := _ :: _).
  assert (P : nth_error T (current (mkFields 5 b)) = Some t) by reflexivity.
  assert (C0 : cast T 6 (mkFields 0 b) =
               Return (CastOperation
                         (BinaryOperation (VariableCall "a") "+"
                            (VariableCall "b")) "int32") (mkFields 5 b)).
  { cbn [cast]. run. rewrite cast_loop_eq. run. run.
    apply (cast_loop_stops T _ t P H). }
  pose proof (expression_of_cast T _ t P H _ _ _ C0) as E.
  apply (expression_fuel T 9 fuel) in E; [exact E|discriminate|exact F].
Qed.

(** ** Parser: an expression that ends the token vector *)

(** C6 (fails on the code). On the five tokens of [1 + 2 * 3] alone
    [expression] does not yield the tree: after the operand [3] the loop
    of [remainder] calls [match], whose [peek] indexes [tokens[5]] of a
    vector of five, and the parse is out of bounds for every sufficient
    fuel and returns for none. The text [void f() return 1 + 2 * 3]
    reaches this from [Parser::parse]. The precedence itself is as
    claimed: with any token after the expression that does not continue
    it, the tree is [1 + (2 * 3)]. *)
Theorem product_in_sum_at_end_reads_out_of_bounds :
  (forall fuel, 9 <= fuel ->
     expression (tokens_of "1 + 2 * 3") fuel initial = OutOfBounds) /\
  (forall fuel n s',
     expression (tokens_of "1 + 2 * 3") fuel initial <> Return n s') /\
  length (tokens_of "1 + 2 * 3") = 5 /\
  primary (tokens_of "1 + 2 * 3") 1 (mkFields 4 true) =
    Return (IntegerLiteral "3") (mkFields 5 true) /\
  match_ (tokens_of "1 + 2 * 3") ["%"] (mkFields 5 true) = OutOfBounds /\
  front_end "void f() return 1 + 2 * 3" = Parsed OutOfBounds /\
  (forall t rest b fuel,
     continues_expression t = false -> 9 <= fuel ->
     expression (tokens_of "1 + 2 * 3" ++ t :: rest) fuel (mkFields 0 b) =
       Return (BinaryOperation (IntegerLiteral "1") "+"
                 (BinaryOperation (IntegerLiteral "2") "*"
                    (IntegerLiteral "3")))
              (mkFields 5 b)).
Proof.
  assert (A : forall fuel, 9 <= fuel ->
            expression (tokens_of "1 + 2 * 3") fuel initial = OutOfBounds).
  { intros fuel F.
    apply (expression_fuel _ 9 fuel);
      [vm_compute; reflexivity | discriminate | exact F]. }
  split; [exact A|].
  split.
  { intros fuel n s' E.
    pose proof (expression_mono (tokens_of "1 + 2 * 3") fuel (Nat.max fuel 9)
                  (Nat.le_max_l _ _) initial) as R.
    rewrite E, (A (Nat.max fuel 9) (Nat.le_max_r _ _)) in R.
    destruct R as [R | R]; discriminate R. }
  repeat split; try (vm_compute; reflexivity).
  intros t rest b fuel H F.
  apply (proj1 (proj2 multiplication_binds_tighter) t rest b fuel H F).
Qed.

Lemma product_in_sum_at_end_reads_out_of_bounds_witness :
  expression (tokens_of "1 + 2 * 3") 9 initial = OutOfBounds.
Proof.
  apply (proj1 product_in_sum_at_end_reads_out_of_bounds 9). lia.
Defined.

(** C7 (fails on the code). On the five tokens of [a + b as int32] alone
    [expression] does not yield the tree: once the suffix [as int32] is
    taken, the loop of [cast] calls [match] again, whose [peek] indexes
    [tokens[5]] of a vector of five, and the parse is out of bounds for
    every sufficient fuel and returns for none. The text
    [void f() return a + b as int32] reaches this from [Parser::parse].
    The binding of [as] itself is as claimed: with any token after the
    expression that does not continue it, the tree is the cast of the
    sum. *)
Theorem cast_of_sum_at_end_reads_out_of_bounds :
  (forall fuel, 9 <= fuel ->
     expression (tokens_of "a + b as int32") fuel initial = OutOfBounds) /\
  (forall fuel n s',
     expression (tokens_of "a + b as int32") fuel initial <> Return n s') /\
  length (tokens_of "a + b as int32") = 5 /\
  term (tokens_of "a + b as int32") 5 initial =
    Return (BinaryOperation (VariableCall "a") "+" (VariableCall "b"))
           (mkFields 3 true) /\
  match_ (tokens_of "a + b as int32") ["as"] (mkFields 5 true) =
    OutOfBounds /\
  front_end "void f() return a + b as int32" = Parsed OutOfBounds /\
  (forall t rest b fuel,
     continues_expression t = false -> 9 <= fuel ->
     expression (tokens_of "a + b as int32" ++ t :: rest) fuel (mkFields 0 b) =
       Return (CastOperation
                 (BinaryOperation (VariableCall "a") "+" (VariableCall "b"))
                 "int32")
              (mkFields 5 b)).
Proof.
  assert (A : forall fuel, 9 <= fuel ->
            expression (tokens_of "a + b as int32") fuel initial
            = OutOfBounds).
  { intros fuel F.
    apply (expression_fuel _ 9 fuel);
      [vm_compute; reflexivity | discriminate | exact F]. }
  split; [exact A|].
  split.
  { intros fuel n s' E.
    pose proof (expression_mono (tokens_of "a + b as int32") fuel
                  (Nat.max fuel 9) (Nat.le_max_l _ _) initial) as R.
    rewrite E, (A (Nat.max fuel 9) (Nat.le_max_r _ _)) in R.
    destruct R as [R | R]; discriminate R. }
  repeat split; try (vm_compute; reflexivity).
  intros t rest b fuel H F.
  apply (proj1 (proj2 cast_wraps_the_sum) t rest b fuel H F).
Qed.

Lemma cast_of_sum_at_end_reads_out_of_bounds_witness :
  expression (tokens_of "a + b as int32") 9 initial = OutOfBounds.
Proof.
  apply (proj1 cast_of_sum_at_end_reads_out_of_bounds 9). lia.
Defined.

(** ** Identifiers of the tokenizer *)

Lemma extend_keeps_head P raw c : forall fuel i v i' v',
  Lexer.extend P raw fuel i (String c v) = Some (i', v') ->
  exists w, v' = String c w.
Proof.
  induction fuel as [|fuel IH]; intros i v i' v'; simpl;
    destruct (_ && _); try discriminate.
  - intros E; inversion E; subst. exists v. reflexivity.
  - apply IH.
  - intros E; inversion E; subst. exists v. reflexivity.
Qed.

Lemma identifier_is_plain c w :
  Lexer.isalpha c = true ->
  Lexer.is_keyword (String c w) = false ->
  Lexer.mem (String c w) dispatched = false.
Proof.
  intros A K. unfold dispatched.
  assert (B : String.eqb (String c w) "{" = false).
  { simpl. destruct (Ascii.eqb_spec c "{"%char) as [E | E]; [|reflexivity].
    subst c. vm_compute in A. discriminate. }
  change (Lexer.mem (String c w) ("{" :: ["if"; "else"; "while"; "return"])
          = false).
  cbn [Lexer.mem]. rewrite B.
  change (Lexer.mem (String c w) ["if"; "else"; "while"; "return"] = false).
  apply (mem_false_incl _ Lexer.keywords); [exact K|].
  intros x X. simpl in X. unfold Lexer.keywords. simpl.
  repeat (destruct X as [X | X]; [subst x; tauto|]). contradiction.
Qed.

(** Every IDENTIFIER the tokenizer emits starts with a letter and is no
    keyword, so it is none of the texts [statement] dispatches on. *)
Lemma lex_loop_plain : forall fuel raw i tokens r,
  Forall plain tokens ->
  Lexer.lex_loop fuel raw i tokens = Lexer.LexOk r ->
  Forall plain r.
Proof.
  induction fuel as [|fuel IH]; intros raw i tokens r G; [discriminate|].
  cbn [Lexer.lex_loop]. cbv zeta.
  assert (other : forall c v, c <> IDENTIFIER ->
            Forall plain (tokens ++ [mkToken c v])).
  { intros c v N. apply Forall_app. split; [exact G|].
    constructor; [|constructor]. intros C. contradiction. }
  assert (X : forall P v k,
            (forall i' v', k i' v' = Lexer.LexOk r -> Forall plain r) ->
            Lexer.with_extend (Lexer.extend P raw (String.length raw) i v) k
              = Lexer.LexOk r -> Forall plain r).
  { intros P v k K. destruct (Lexer.extend _ _ _ _ _) as [[i' v']|];
      [apply K | discriminate]. }
  destruct (negb _); [intros E; inversion E; subst; exact G|].
  destruct (Lexer.isspace _); [apply IH, G|].
  destruct (Lexer.isalpha (Lexer.char_at raw i)) eqn:A.
  { unfold Lexer.with_extend, Lexer.str1.
    destruct (Lexer.extend _ _ _ _ _) as [[i' v']|] eqn:E; [|discriminate].
    destruct (extend_keeps_head _ _ _ _ _ _ _ _ E) as (w & ->).
    apply IH. apply Forall_app. split; [exact G|].
    constructor; [|constructor]. unfold plain. cbn [category value].
    destruct (_ || _); [discriminate|].
    destruct (Lexer.is_keyword _) eqn:K; [discriminate|].
    intros _. apply identifier_is_plain; assumption. }
  destruct (Lexer.isdigit _).
  { apply X. intros i1 v1. destruct (_ && _).
    - unfold Lexer.with_extend.
      destruct (Lexer.extend _ _ _ _ _) as [[i2 v2]|]; [|discriminate].
      apply IH, other. discriminate.
    - apply IH, other. discriminate. }
  destruct (Lexer.is_operator _);
    [apply X; intros; eapply IH; [apply other|eassumption]; discriminate|].
  destruct (Lexer.is_punctuator _);
    [apply X; intros; eapply IH; [apply other|eassumption]; discriminate|].
  destruct (Ascii.eqb _ _);
    [apply X; intros; eapply IH; [apply other|eassumption]; discriminate|].
  discriminate.
Qed.

Lemma lexed_identifiers_are_plain raw tokens t :
  Lexer.lex raw = Lexer.LexOk tokens ->
  In t tokens -> category t = IDENTIFIER ->
  Lexer.mem (value t) dispatched = false.
Proof.
  intros L I C.
  assert (G : Forall plain tokens)
    by (apply (lex_loop_plain _ _ _ _ _ (Forall_nil _) L)).
  rewrite Forall_forall in G. apply (G t I C).
Qed.

(** ** Parser: assignments *)

(** C8. A statement [id op= expr ;] with [op=] one of [+= -= *= /= %=]
    becomes [VariableAssignment id (BinaryOperation (VariableCall id) op
    expr)], and [id = expr ;] becomes [VariableAssignment id expr], where
    [expr] is what [expression] returns on the tokens after the operator.
    [id] is the text of an IDENTIFIER token, so none of the texts that
    [statement] dispatches on first ([lexed_identifiers_are_plain]). *)
Theorem assignment_desugaring :
  (forall tokens f s id opeq op v s' semi,
     nth_error tokens (current s) = Some (mkToken IDENTIFIER id) ->
     Lexer.mem id dispatched = false ->
     nth_error tokens (current s + 1) = Some (mkToken OPERATOR opeq) ->
     In (opeq, op) [("+=", "+"); ("-=", "-"); ("*=", "*"); ("/=", "/");
                    ("%=", "%")] ->
     expression tokens f (mkFields (current s + 1 + 1) (success s)) =
       Return v s' ->
     nth_error tokens (current s') = Some semi -> value semi = ";" ->
     statement tokens (S f) s =
       Return (VariableAssignment id
                 (BinaryOperation (VariableCall id) op v))
              (mkFields (current s' + 1) (success s'))) /\
  (forall tokens f s id v s' semi,
     nth_error tokens (current s) = Some (mkToken IDENTIFIER id) ->
     Lexer.mem id dispatched = false ->
     nth_error tokens (current s + 1) = Some (mkToken OPERATOR "=") ->
     expression tokens f (mkFields (current s + 1 + 1) (success s)) =
       Return v s' ->
     nth_error tokens (current s') = Some semi -> value semi = ";" ->
     statement tokens (S f) s =
       Return (VariableAssignment id v)
              (mkFields (current s' + 1) (success s'))) /\
  statement (tokens_of "x += 1;") 32 initial =
    Return (VariableAssignment "x"
              (BinaryOperation (VariableCall "x") "+" (IntegerLiteral "1")))
           (mkFields 4 true) /\
  front_end "void f() { x += 1; }" =
    Parsed (Return
      [FunctionDeclaration "void" "f" [] []
         (ScopeDeclaration
            [VariableAssignment "x"
               (BinaryOperation (VariableCall "x") "+"
                  (IntegerLiteral "1"))])]
      (mkFields 10 true)).
Proof.
  assert (G : forall tokens f s id opeq v s' semi,
     nth_error tokens (current s) = Some (mkToken IDENTIFIER id) ->
     Lexer.mem id dispatched = false ->
     nth_error tokens (current s + 1) = Some (mkToken OPERATOR opeq) ->
     Lexer.mem opeq ["="; "+="; "-="; "*="; "/="; "%="] = true ->
     expression tokens f (mkFields (current s + 1 + 1) (success s)) =
       Return v s' ->
     nth_error tokens (current s') = Some semi -> value semi = ";" ->
     statement tokens (S f) s =
       Return (if String.eqb opeq "=" then VariableAssignment id v
               else VariableAssignment id
                      (BinaryOperation (VariableCall id) (compound_op opeq) v))
              (mkFields (current s' + 1) (success s'))).
  { intros tokens f s id opeq v s' semi I K O Q E S V.
    assert (miss : forall values,
              incl values dispatched ->
              match_ tokens values s = Return false s).
    { intros values J. apply (match_miss tokens values s _ I).
      apply (mem_false_incl _ _ _ K J). }
    cbn [statement]; cbv zeta.
    rewrite (bind_Return _ _ _ _ _ (miss ["{"] ltac:(intros x [<-|[]]; simpl; tauto))).
    rewrite (bind_Return _ _ _ _ _
               (miss ["if"; "else"] ltac:(intros x [<-|[<-|[]]]; simpl; tauto))).
    rewrite (bind_Return _ _ _ _ _ (miss ["while"] ltac:(intros x [<-|[]]; simpl; tauto))).
    rewrite (bind_Return _ _ _ _ _ (miss ["return"] ltac:(intros x [<-|[]]; simpl; tauto))).
    rewrite (bind_Return _ _ _ _ _ (peek_category_is_spec tokens s _ I IDENTIFIER)).
    cbn [category Category_eqb].
    rewrite (bind_Return _ _ _ _ _ (match_next_spec tokens s _ _ O)).
    cbn [value]. rewrite Q.
    unfold variable_assignment.
    rewrite (bind_Return _ _ _ _ _ (advance_spec tokens s _ I)).
    set (s1 := mkFields (current s + 1) (success s)).
    assert (O1 : nth_error tokens (current s1) = Some (mkToken OPERATOR opeq))
      by exact O.
    rewrite (bind_Return _ _ _ _ _ (peek_category_is_spec tokens s1 _ O1 OPERATOR)).
    cbn [category Category_eqb].
    assert (A : bind (advance tokens) (fun o => ret (value o)) s1 =
                Return opeq (mkFields (current s + 1 + 1) (success s)))
      by (rewrite (bind_Return _ _ _ _ _ (advance_spec tokens s1 _ O1));
          reflexivity).
    rewrite (bind_Return _ _ _ _ _ A).
    rewrite (bind_Return _ _ _ _ _ E).
    rewrite (bind_Return _ _ _ _ _
               (consume_hit tokens s' semi S ";" _ V)).
    destruct (String.eqb opeq "="); reflexivity. }
  split; [|split; [|split; vm_compute; reflexivity]].
  - intros tokens f s id opeq op v s' semi I K O C E S V.
    simpl in C.
    assert (Q : Lexer.mem opeq ["="; "+="; "-="; "*="; "/="; "%="] = true /\
                String.eqb opeq "=" = false /\ compound_op opeq = op).
    { repeat (destruct C as [C | C];
              [inversion C; subst; repeat split; reflexivity|]).
      contradiction. }
    destruct Q as (Q & N & B).
    rewrite (G tokens f s id opeq v s' semi I K O Q E S V), N, B.
    reflexivity.
  - intros tokens f s id v s' semi I K O E S V.
    rewrite (G tokens f s id "=" v s' semi I K O eq_refl E S V).
    reflexivity.
Qed.

Lemma assignment_desugaring_witness :
  statement (tokens_of "x += 1;") 10 initial =
    Return (VariableAssignment "x"
              (BinaryOperation (VariableCall "x") "+" (IntegerLiteral "1")))
           (mkFields 4 true).
Proof.
  apply (proj1 assignment_desugaring (tokens_of "x += 1;") 9 initial
           "x" "+=" "+" (IntegerLiteral "1") (mkFields 3 true)
           (mkToken PUNCTUATOR ";"));
    try reflexivity.
  simpl. auto.
Defined.

(** * Further properties *)

(** ** The tokenizer *)

Lemma all_chars_app P a b :
  all_chars P (a ++ b)%string = all_chars P a && all_chars P b.
Proof.
  induction a as [|c a IH]; simpl; [reflexivity|].
  rewrite IH, andb_assoc. reflexivity.
Qed.

Lemma all_chars_at P s :
  all_chars P s = true ->
  forall i, i < String.length s -> P (Lexer.char_at s i) = true.
Proof.
  induction s as [|c s IH]; simpl; intros A i L; [lia|].
  apply andb_prop in A. destruct A as [A B].
  destruct i as [|i]; [exact A|]. apply (IH B i). lia.
Qed.

(** A property of the accumulated text that each step of an inner loop
    keeps holds of what the loop returns. *)
Lemma extend_invariant P raw (Q : string -> Prop) :
  (forall v c, Q v -> P v c = true -> Q (Lexer.push v c)) ->
  forall fuel i v i' v',
    Q v -> Lexer.extend P raw fuel i v = Some (i', v') -> Q v'.
Proof.
  intros step. induction fuel as [|fuel IH]; intros i v i' v' q; simpl.
  - destruct (_ && _); [discriminate|].
    intros E; inversion E; subst; exact q.
  - destruct ((i + 1 <? String.length raw)%nat) eqn:L; simpl.
    + destruct (P v (Lexer.char_at raw (i + 1))) eqn:C.
      * apply IH. apply step; assumption.
      * intros E; inversion E; subst; exact q.
    + intros E; inversion E; subst; exact q.
Qed.

Lemma append_assoc_s a b c : ((a ++ b) ++ c = a ++ (b ++ c))%string.
Proof. induction a as [|x a IH]; simpl; [|rewrite IH]; reflexivity. Qed.

Lemma extend_suffix p raw fuel i v i' v' :
  Lexer.extend (fun _ c => p c) raw fuel i v = Some (i', v') ->
  exists w, v' = (v ++ w)%string /\ all_chars p w = true.
Proof.
  apply (extend_invariant _ raw
           (fun x => exists w, x = (v ++ w)%string /\ all_chars p w = true)).
  - intros x c (w & -> & W) C. exists (w ++ String c "")%string. split.
    + unfold Lexer.push. apply append_assoc_s.
    + rewrite all_chars_app, W. simpl. rewrite C. reflexivity.
  - exists "". split; [rewrite append_empty; reflexivity | reflexivity].
Qed.

Lemma char_at_beyond raw : forall i,
  String.length raw <= i -> Lexer.char_at raw i = Ascii.zero.
Proof.
  unfold Lexer.char_at.
  induction raw as [|c raw IH]; intros i L; [destruct i; reflexivity|].
  simpl in L. destruct i as [|i]; [lia|]. simpl. apply IH. lia.
Qed.

(** The second loop of the numeric branch, entered on a dot that a digit
    follows, reads that digit at least. *)
Lemma fraction_digits raw i v i' v' :
  Lexer.isdigit (Lexer.char_at raw (i + 1)) = true ->
  Lexer.extend Lexer.digit_next raw (String.length raw) i v = Some (i', v') ->
  exists w, v' = (v ++ w)%string /\ digits w.
Proof.
  intros D.
  assert (L : i + 1 < String.length raw).
  { destruct (Nat.lt_ge_cases (i + 1) (String.length raw)) as [L | L];
      [exact L|].
    rewrite (char_at_beyond raw (i + 1) L) in D. discriminate. }
  destruct (String.length raw) as [|n] eqn:N; [lia|].
  simpl. rewrite N.
  destruct (Nat.ltb_spec (i + 1) (S n)) as [_ | B]; [|lia].
  unfold Lexer.digit_next at 1. rewrite D. simpl.
  intros E. apply (extend_suffix Lexer.isdigit) in E.
  destruct E as (w & -> & W).
  exists (String (Lexer.char_at raw (i + 1)) w). split.
  - apply push_append.
  - split; [discriminate|]. simpl. rewrite D, W. reflexivity.
Qed.

Lemma lex_loop_well_formed : forall fuel raw i tokens r,
  Forall well_formed tokens ->
  Lexer.lex_loop fuel raw i tokens = Lexer.LexOk r ->
  Forall well_formed r.
Proof.
  induction fuel as [|fuel IH]; intros raw i tokens r G; [discriminate|].
  cbn [Lexer.lex_loop]. cbv zeta.
  assert (more : forall t, well_formed t -> Forall well_formed (tokens ++ [t])).
  { intros t W. apply Forall_app. split; [exact G|].
    constructor; [exact W | constructor]. }
  destruct (negb _); [intros E; inversion E; subst; exact G|].
  destruct (Lexer.isspace _); [apply IH, G|].
  unfold Lexer.with_extend, Lexer.str1.
  destruct (Lexer.isalpha (Lexer.char_at raw i)) eqn:A.
  { destruct (Lexer.extend _ _ _ _ _) as [[i' v']|] eqn:E; [|discriminate].
    apply (extend_suffix alnum) in E. destruct E as (w & -> & W).
    assert (Wd : word (String (Lexer.char_at raw i) w))
      by (exists (Lexer.char_at raw i), w; auto).
    apply IH, more. unfold well_formed. cbn [category value].
    simpl append in *.
    destruct (String.eqb_spec (String (Lexer.char_at raw i) w) "false")
      as [F | F]; [cbn; rewrite F; auto|].
    destruct (String.eqb_spec (String (Lexer.char_at raw i) w) "true")
      as [T | T]; [cbn; rewrite T; auto|].
    cbn [orb].
    destruct (Lexer.is_keyword _) eqn:K; cbn; auto. }
  destruct (Lexer.isdigit (Lexer.char_at raw i)) eqn:D.
  { destruct (Lexer.extend _ _ _ _ _) as [[i1 v1]|] eqn:E; [|discriminate].
    apply (extend_suffix Lexer.isdigit) in E. destruct E as (w & -> & W).
    simpl append.
    assert (Dg : digits (String (Lexer.char_at raw i) w))
      by (split; [discriminate | simpl; rewrite D, W; reflexivity]).
    destruct (Ascii.eqb_spec (Lexer.char_at raw (i1 + 1)) "."%char) as [P | P];
      cbn [andb]; [|apply IH, more; exact Dg].
    destruct (Lexer.isdigit (Lexer.char_at raw (i1 + 2))) eqn:D2;
      [|apply IH, more; exact Dg].
    destruct (Lexer.extend _ _ _ _ _) as [[i2 v2]|] eqn:E; [|discriminate].
    apply fraction_digits in E;
      [|replace (i1 + 1 + 1) with (i1 + 2) by lia; exact D2].
    destruct E as (w2 & -> & W2).
    apply IH, more. unfold well_formed. cbn [category value].
    exists (String (Lexer.char_at raw i) w), w2. rewrite P, push_append.
    auto. }
  destruct (Lexer.is_operator _) eqn:O.
  { destruct (Lexer.extend _ _ _ _ _) as [[i' v']|] eqn:E; [|discriminate].
    apply IH, more. unfold well_formed. cbn [category value].
    apply (extend_invariant _ _ (fun v => Lexer.is_operator v = true)
             (fun v c _ H => H) _ _ _ _ _ O E). }
  destruct (Lexer.is_punctuator _) eqn:U.
  { destruct (Lexer.extend _ _ _ _ _) as [[i' v']|] eqn:E; [|discriminate].
    apply IH, more. unfold well_formed. cbn [category value].
    apply (extend_invariant _ _ (fun v => Lexer.is_punctuator v = true)
             (fun v c _ H => H) _ _ _ _ _ U E). }
  destruct (Ascii.eqb _ _); [|discriminate].
  destruct (Lexer.extend _ _ _ _ _) as [[i' v']|] eqn:E; [|discriminate].
  apply (extend_suffix not_quote) in E. destruct E as (w & -> & W).
  apply IH, more. exact W.
Qed.

(** X2. Every token of a text that lexes is well formed: identifiers and
    keywords are words, and a word is a KEYWORD exactly when it is in the
    keyword table and is not [true] or [false], which are BOOLEAN_LITERALs;
    numbers are digit strings, with one inner dot for a FLOAT_LITERAL;
    operators and punctuators are entries of their tables; a string holds
    no quote; and no token has one of the categories LINE_COMMENT,
    BLOCK_COMMENT or UNKNOWN. *)
Theorem lexed_tokens_are_well_formed raw tokens :
  Lexer.lex raw = Lexer.LexOk tokens -> Forall well_formed tokens.
Proof. apply lex_loop_well_formed. constructor. Qed.

Lemma lexed_tokens_are_well_formed_witness :
  Forall well_formed
    [mkToken IDENTIFIER "x1"; mkToken OPERATOR "<=";
     mkToken FLOAT_LITERAL "2.50"; mkToken PUNCTUATOR ";"].
Proof.
  apply (lexed_tokens_are_well_formed "x1 <= 2.50;"). vm_compute. reflexivity.
Defined.

Lemma lex_loop_error : forall fuel raw i tokens msg,
  Lexer.lex_loop fuel raw i tokens = Lexer.LexError msg ->
  msg = "Unkown token: " /\
  exists j, j < String.length raw /\ accepted (Lexer.char_at raw j) = false.
Proof.
  induction fuel as [|fuel IH]; intros raw i tokens msg; [discriminate|].
  cbn [Lexer.lex_loop]. cbv zeta.
  destruct (Nat.ltb_spec i (String.length raw)) as [L | L]; [|discriminate].
  cbn [negb]. unfold Lexer.with_extend.
  destruct (Lexer.isspace _) eqn:S; [apply IH|].
  destruct (Lexer.isalpha _) eqn:A.
  { destruct (Lexer.extend _ _ _ _ _) as [[i' v']|]; [apply IH|discriminate]. }
  destruct (Lexer.isdigit _) eqn:D.
  { destruct (Lexer.extend _ _ _ _ _) as [[i1 v1]|]; [|discriminate].
    destruct (_ && _); [|apply IH].
    destruct (Lexer.extend _ _ _ _ _) as [[i2 v2]|]; [apply IH|discriminate]. }
  destruct (Lexer.is_operator _) eqn:O.
  { destruct (Lexer.extend _ _ _ _ _) as [[i' v']|]; [apply IH|discriminate]. }
  destruct (Lexer.is_punctuator _) eqn:P.
  { destruct (Lexer.extend _ _ _ _ _) as [[i' v']|]; [apply IH|discriminate]. }
  destruct (Ascii.eqb _ _) eqn:Q.
  { destruct (Lexer.extend _ _ _ _ _) as [[i' v']|]; [apply IH|discriminate]. }
  intros E. inversion E. split; [reflexivity|].
  exists i. split; [exact L|]. unfold accepted.
  rewrite S, A, D, O, P, Q. reflexivity.
Qed.

(** X3. The only lexical error is the one for a character that starts no
    token; its message is always the bare prefix (the token text is empty
    when it is raised), and it can only occur when the text holds such a
    character. A text made of accepted characters always lexes. *)
Theorem lexical_errors raw :
  (forall msg, Lexer.lex raw = Lexer.LexError msg ->
     msg = "Unkown token: " /\ all_chars accepted raw = false) /\
  (all_chars accepted raw = true ->
     exists tokens, Lexer.lex raw = Lexer.LexOk tokens).
Proof.
  assert (X : forall msg, Lexer.lex raw = Lexer.LexError msg ->
     msg = "Unkown token: " /\ all_chars accepted raw = false).
  { intros msg E. apply lex_loop_error in E. destruct E as (M & j & L & N).
    split; [exact M|].
    destruct (all_chars accepted raw) eqn:A; [|reflexivity].
    rewrite (all_chars_at _ _ A j L) in N. discriminate. }
  split; [exact X|].
  intros A. case_eq (Lexer.lex raw).
  - intros tokens _. exists tokens. reflexivity.
  - intros msg E. destruct (X msg E) as [_ N]. congruence.
  - intros E. exfalso. revert E. apply lex_loop_total; lia.
Qed.

Lemma lexical_errors_witness :
  exists tokens, Lexer.lex "a=b+1;" = Lexer.LexOk tokens.
Proof.
  apply (proj2 (lexical_errors "a=b+1;")). vm_compute. reflexivity.
Defined.

(** X1. The tokenizer comes to an end on every text, with a token vector
    or with its one lexical error. *)
Theorem tokenizer_terminates raw :
  (exists tokens, Lexer.lex raw = Lexer.LexOk tokens) \/
  Lexer.lex raw = Lexer.LexError "Unkown token: ".
Proof.
  case_eq (Lexer.lex raw).
  - intros tokens _. left. exists tokens. reflexivity.
  - intros msg E. right. apply lex_loop_error in E. destruct E as [-> _].
    reflexivity.
  - intros E. exfalso. revert E. apply lex_loop_total; lia.
Qed.

(** The loop of the string branch, when the next quote is at [j]: it stops
    on the character before it, having collected the text in between. *)
Lemma extend_to_quote raw j : forall fuel i v,
  i < j -> j < String.length raw ->
  Lexer.char_at raw j = Lexer.dquote ->
  (forall k, i < k < j -> Lexer.char_at raw k <> Lexer.dquote) ->
  j <= i + 1 + fuel ->
  Lexer.extend Lexer.string_next raw fuel i v =
  Some (j - 1, (v ++ substring (i + 1) (j - (i + 1)) raw)%string).
Proof.
  assert (last : forall fuel i v, i + 1 = j -> j < String.length raw ->
            Lexer.char_at raw j = Lexer.dquote ->
            Lexer.extend Lexer.string_next raw fuel i v =
            Some (j - 1, (v ++ substring (i + 1) (j - (i + 1)) raw)%string)).
  { intros fuel i v E L Q.
    assert (C : ((i + 1 <? String.length raw)%nat
                 && Lexer.string_next v (Lexer.char_at raw (i + 1))) = false).
    { rewrite E, Q. unfold Lexer.string_next.
      rewrite Ascii.eqb_refl. apply andb_false_r. }
    destruct fuel; simpl; rewrite C;
      rewrite E, Nat.sub_diag, substring_none, append_empty;
      f_equal; f_equal; lia. }
  induction fuel as [|fuel IH]; intros i v I L Q N F.
  - apply last; [lia | exact L | exact Q].
  - destruct (Nat.eq_dec (i + 1) j) as [E | E];
      [apply last; assumption|].
    simpl. destruct (Nat.ltb_spec (i + 1) (String.length raw)) as [_ | B];
      [|lia].
    assert (C : Lexer.string_next v (Lexer.char_at raw (i + 1)) = true).
    { unfold Lexer.string_next.
      destruct (Ascii.eqb_spec (Lexer.char_at raw (i + 1)) Lexer.dquote)
        as [D | D]; [|reflexivity].
      exfalso. apply (N (i + 1)); [lia | exact D]. }
    rewrite C. simpl.
    rewrite (IH (i + 1)); [| lia | exact L | exact Q
                           | intros k K; apply N; lia | lia].
    replace (j - (i + 1)) with (S (j - (i + 1 + 1))) by lia.
    rewrite (substring_step raw (i + 1)) by lia.
    rewrite push_append. reflexivity.
Qed.

(** X4. A string literal that is closed: when the main loop stands on a
    quote at [i] and the next quote is at [j], one STRING_LITERAL is
    pushed whose text is exactly what lies between the two quotes, with no
    escape processing, and the loop goes on after the closing quote. *)
Theorem closed_string_is_one_token raw i j tokens fuel :
  i < j -> j < String.length raw ->
  Lexer.char_at raw i = Lexer.dquote ->
  Lexer.char_at raw j = Lexer.dquote ->
  (forall k, i < k < j -> Lexer.char_at raw k <> Lexer.dquote) ->
  Lexer.lex_loop (S fuel) raw i tokens =
  Lexer.lex_loop fuel raw (j + 1)
    (tokens ++ [mkToken STRING_LITERAL (substring (i + 1) (j - (i + 1)) raw)]).
Proof.
  intros I L Qi Qj N.
  cbn [Lexer.lex_loop]. cbv zeta.
  destruct (Nat.ltb_spec i (String.length raw)) as [_ | B]; [|lia].
  cbn [negb]. rewrite Qi.
  change (Lexer.isspace Lexer.dquote) with false.
  change (Lexer.isalpha Lexer.dquote) with false.
  change (Lexer.isdigit Lexer.dquote) with false.
  change (Lexer.is_operator (Lexer.str1 Lexer.dquote)) with false.
  change (Lexer.is_punctuator (Lexer.str1 Lexer.dquote)) with false.
  change (Ascii.eqb Lexer.dquote Lexer.dquote) with true.
  cbv iota.
  rewrite (extend_to_quote raw j (String.length raw) i "" I L Qj N) by lia.
  unfold Lexer.with_extend.
  replace (j - 1 + 1 + 1) with (j + 1) by lia.
  reflexivity.
Qed.

Lemma closed_string_is_one_token_witness :
  Lexer.lex (String Lexer.dquote ("a b" ++ String Lexer.dquote ";")) =
  Lexer.LexOk [mkToken STRING_LITERAL "a b"; mkToken PUNCTUATOR ";"].
Proof.
  unfold Lexer.lex.
  rewrite (closed_string_is_one_token _ 0 4 [] _);
    [vm_compute; reflexivity | lia | simpl; lia | reflexivity | reflexivity |].
  intros k K. destruct k as [|[|[|[|k]]]]; try lia; vm_compute; discriminate.
Defined.

(** The tokenizer looks at the text from its cursor on only: a character
    put in front shifts every index by one. *)
Lemma extend_fuel P raw : forall f1 f2 i v,
  String.length raw <= i + 1 + f1 -> String.length raw <= i + 1 + f2 ->
  Lexer.extend P raw f1 i v = Lexer.extend P raw f2 i v.
Proof.
  assert (stop : forall f i v, String.length raw <= i + 1 ->
            Lexer.extend P raw f i v = Some (i, v)).
  { intros f i v L.
    assert (E : (i + 1 <? String.length raw)%nat = false)
      by (apply Nat.ltb_ge; exact L).
    destruct f; simpl; rewrite E; reflexivity. }
  induction f1 as [|f1 IH]; intros f2 i v L1 L2.
  - rewrite !stop by lia. reflexivity.
  - destruct f2 as [|f2]; [rewrite !stop by lia; reflexivity|].
    simpl. destruct (_ && _) eqn:C; [|reflexivity].
    apply IH; lia.
Qed.

Lemma extend_shift P c raw : forall fuel i v,
  Lexer.extend P (String c raw) fuel (S i) v =
  shift (Lexer.extend P raw fuel i v).
Proof.
  induction fuel as [|fuel IH]; intros i v; simpl;
    change (Lexer.char_at (String c raw) (S (i + 1)))
      with (Lexer.char_at raw (i + 1));
    change (S (i + 1) <? S (String.length raw))%nat
      with (i + 1 <? String.length raw)%nat;
    destruct (_ && _); try reflexivity.
  apply IH.
Qed.

Lemma with_extend_ext r k1 k2 :
  (forall i v, k1 i v = k2 i v) ->
  Lexer.with_extend r k1 = Lexer.with_extend r k2.
Proof. intros E. destruct r as [[i v]|]; simpl; [apply E | reflexivity]. Qed.

Lemma lex_loop_shift c raw : forall fuel i tokens,
  Lexer.lex_loop fuel (String c raw) (S i) tokens =
  Lexer.lex_loop fuel raw i tokens.
Proof.
  assert (X : forall P i v k,
            Lexer.with_extend
              (Lexer.extend P (String c raw) (S (String.length raw)) (S i) v) k
            = Lexer.with_extend
                (Lexer.extend P raw (String.length raw) i v)
                (fun i v => k (S i) v)).
  { intros P i v k.
    rewrite (extend_fuel P (String c raw) _ (String.length raw))
      by (simpl; lia).
    rewrite extend_shift.
    destruct (Lexer.extend _ _ _ _ _) as [[i' v']|]; reflexivity. }
  induction fuel as [|fuel IH]; intros i tokens; [reflexivity|].
  cbn [Lexer.lex_loop]. cbv zeta.
  change (String.length (String c raw)) with (S (String.length raw)).
  change (S i <? S (String.length raw))%nat
    with (i <? String.length raw)%nat.
  change (Lexer.char_at (String c raw) (S i)) with (Lexer.char_at raw i).
  destruct (negb _); [reflexivity|].
  destruct (Lexer.isspace _); [apply (IH (i + 1))|].
  destruct (Lexer.isalpha _);
    [rewrite X; apply with_extend_ext; intros i' v'; apply (IH (i' + 1))|].
  destruct (Lexer.isdigit _).
  { rewrite X. apply with_extend_ext. intros i1 v1.
    change (Lexer.char_at (String c raw) (S i1 + 1))
      with (Lexer.char_at raw (i1 + 1)).
    change (Lexer.char_at (String c raw) (S i1 + 2))
      with (Lexer.char_at raw (i1 + 2)).
    destruct (_ && _); [|apply (IH (i1 + 1))].
    rewrite (X _ (i1 + 1)). apply with_extend_ext. intros i2 v2.
    apply (IH (i2 + 1)). }
  destruct (Lexer.is_operator _);
    [rewrite X; apply with_extend_ext; intros i' v'; apply (IH (i' + 1))|].
  destruct (Lexer.is_punctuator _);
    [rewrite X; apply with_extend_ext; intros i' v'; apply (IH (i' + 1))|].
  destruct (Ascii.eqb _ _); [|reflexivity].
  rewrite X; apply with_extend_ext; intros i' v'; apply (IH (i' + 1 + 1)).
Qed.

Lemma lex_loop_space fuel raw i tokens :
  i < String.length raw -> Lexer.isspace (Lexer.char_at raw i) = true ->
  Lexer.lex_loop (S fuel) raw i tokens = Lexer.lex_loop fuel raw (i + 1) tokens.
Proof.
  intros L C. cbn [Lexer.lex_loop]. cbv zeta.
  destruct (Nat.ltb_spec i (String.length raw)) as [_ | B]; [|lia].
  rewrite C. reflexivity.
Qed.

(** X5. White space in front of a text does not change its tokens; in
    particular a text of white space only has none. *)
Theorem leading_whitespace ws raw :
  all_chars Lexer.isspace ws = true ->
  Lexer.lex (ws ++ raw)%string = Lexer.lex raw.
Proof.
  induction ws as [|c ws IH]; simpl; intros A; [reflexivity|].
  apply andb_prop in A. destruct A as [C A].
  rewrite <- (IH A). unfold Lexer.lex.
  change (String.length (String c (ws ++ raw)))
    with (S (String.length (ws ++ raw)%string)).
  rewrite lex_loop_space; [|simpl; lia | exact C].
  apply (lex_loop_shift c (ws ++ raw) _ 0).
Qed.

Lemma leading_whitespace_witness :
  Lexer.lex ("  " ++ "x")%string = Lexer.lex "x".
Proof. apply leading_whitespace. reflexivity. Defined.

(** ** The log line of a token *)

Lemma append_right_injective (a b c : string) :
  (a ++ c = b ++ c)%string -> a = b.
Proof.
  revert b. induction a as [|x a IH]; intros [|y b] E; simpl in E.
  - reflexivity.
  - exfalso. apply (f_equal String.length) in E. simpl in E.
    assert (L : forall u v : string,
              String.length (u ++ v)%string = String.length u + String.length v)
      by (induction u; simpl; intros; [|rewrite IHu]; reflexivity).
    rewrite L in E. lia.
  - exfalso. apply (f_equal String.length) in E. simpl in E.
    assert (L : forall u v : string,
              String.length (u ++ v)%string = String.length u + String.length v)
      by (induction u; simpl; intros; [|rewrite IHu]; reflexivity).
    rewrite L in E. lia.
  - inversion E. f_equal. apply IH. assumption.
Qed.

(** X8. The line [Token::log] writes determines the token: two tokens with
    the same line have the same category and the same text. *)
Theorem log_is_injective t1 t2 : log t1 = log t2 -> t1 = t2.
Proof.
  destruct t1 as [c1 v1], t2 as [c2 v2]. unfold log. cbn [category value].
  intros E.
  assert (C : c1 = c2).
  { destruct c1, c2; try reflexivity; simpl in E; discriminate E. }
  subst c2. f_equal.
  apply (append_right_injective v1 v2 "'").
  destruct c1; simpl in E; inversion E; reflexivity.
Qed.

Lemma log_is_injective_witness :
  mkToken IDENTIFIER "x" = mkToken IDENTIFIER "x".
Proof. apply log_is_injective. reflexivity. Defined.

(** ** What every method keeps *)

Lemma sound_ret tokens E {A} (a : A) : sound tokens E (ret a).
Proof. intros s. simpl. auto. Qed.

Lemma sound_out_of_fuel tokens E {A} : sound tokens E (@out_of_fuel A).
Proof. intros s. exact I. Qed.

Lemma sound_bind tokens E {A B} (p : M A) (k : A -> M B) :
  sound tokens E p -> (forall a, sound tokens E (k a)) ->
  sound tokens E (bind p k).
Proof.
  intros P K s. unfold bind. specialize (P s).
  destruct (p s) as [a s1 | msg s1 | |]; auto.
  specialize (K a s1). destruct P as (P1 & P2 & P3).
  destruct (k a s1) as [b s2 | msg s2 | |]; auto.
  - destruct K as (K1 & K2 & K3). repeat split; [lia | congruence | auto].
  - destruct K as (K1 & [K2 | [K2 K3]]); split; try lia; auto.
    right. split; [exact K2 | congruence].
Qed.

Lemma sound_weaken tokens (E E' : string -> Prop) {A} (p : M A) :
  (forall m, E m -> E' m) -> sound tokens E p -> sound tokens E' p.
Proof.
  intros W P s. specialize (P s).
  destruct (p s) as [a s1 | msg s1 | |]; auto.
  destruct P as (P1 & [P2 | [P2 P3]]); auto.
Qed.

Lemma sound_throw tokens (E : string -> Prop) {A} msg :
  E msg -> sound tokens E (@throw A msg).
Proof. intros H s. simpl. auto. Qed.

Lemma sound_error tokens E {A} msg : sound tokens E (@error A msg).
Proof. intros s. simpl. auto. Qed.

Lemma sound_token_at tokens E i : sound tokens E (token_at tokens i).
Proof.
  intros s. unfold token_at. destruct (nth_error tokens i); simpl; auto.
Qed.

Lemma sound_at_end tokens E : sound tokens E (at_end tokens).
Proof. intros s. simpl. auto. Qed.

Lemma sound_peek tokens E : sound tokens E (peek tokens).
Proof. intros s. rewrite peek_spec. destruct (nth_error _ _); simpl; auto. Qed.

Lemma sound_previous tokens E : sound tokens E (previous tokens).
Proof.
  intros s. unfold previous, bind, get_current, token_at.
  destruct (current s) eqn:C; [exact I|].
  destruct (nth_error _ _); simpl; rewrite ?C; auto.
Qed.

Lemma sound_next tokens E : sound tokens E (next tokens).
Proof.
  intros s. rewrite next_spec, peek_spec.
  destruct (_ <=? _)%nat; destruct (nth_error _ _); simpl; auto.
Qed.

Lemma advance_cases tokens s :
  (current s < length tokens /\
   exists t, nth_error tokens (current s) = Some t /\
             advance tokens s =
             Return t (mkFields (current s + 1) (success s))) \/
  (length tokens <= current s /\ advance tokens s = previous tokens s).
Proof.
  destruct (Nat.lt_ge_cases (current s) (length tokens)) as [L | L].
  - left. split; [exact L|].
    destruct (nth_error tokens (current s)) as [t|] eqn:N;
      [|apply nth_error_None in N; lia].
    exists t. split; [reflexivity | apply advance_spec, N].
  - right. split; [exact L|].
    unfold advance, bind at 1. rewrite at_end_spec.
    destruct (Nat.leb_spec (length tokens) (current s)); [reflexivity | lia].
Qed.

Lemma sound_advance tokens E : sound tokens E (advance tokens).
Proof.
  intros s. destruct (advance_cases tokens s) as [(L & t & _ & ->) | (L & ->)].
  - simpl. repeat split; lia.
  - apply sound_previous.
Qed.

Lemma sound_peek_category_is tokens E c :
  sound tokens E (peek_category_is tokens c).
Proof.
  apply sound_bind; [apply sound_peek | intros; apply sound_ret].
Qed.

Lemma sound_peek_value_is tokens E v :
  sound tokens E (peek_value_is tokens v).
Proof.
  apply sound_bind; [apply sound_peek | intros; apply sound_ret].
Qed.

Lemma sound_match tokens E values : sound tokens E (match_ tokens values).
Proof.
  induction values as [|v values IH]; cbn [match_]; [apply sound_ret|].
  apply sound_bind; [apply sound_peek | intros t].
  destruct (String.eqb _ _); [|exact IH].
  apply sound_bind; [apply sound_advance | intros; apply sound_ret].
Qed.

Lemma sound_match_next tokens E values :
  sound tokens E (match_next tokens values).
Proof.
  induction values as [|v values IH]; cbn [match_next]; [apply sound_ret|].
  apply sound_bind; [apply sound_next | intros t].
  destruct (String.eqb _ _); [apply sound_ret | exact IH].
Qed.

Lemma sound_consume tokens E type message :
  sound tokens E (consume tokens type message).
Proof.
  intros s. unfold consume, bind at 1.
  unfold peek_value_is, bind at 1. rewrite peek_spec.
  destruct (nth_error tokens (current s)) as [t|] eqn:N; [|exact I].
  cbn [ret]. destruct (String.eqb _ _).
  - unfold bind, get_current, token_at, set_current, ret. rewrite N. simpl.
    assert (current s < length tokens)
      by (apply nth_error_Some; rewrite N; discriminate).
    repeat split; lia.
  - apply sound_error.
Qed.

Lemma sound_match_key tokens E : sound tokens E (match_key tokens).
Proof.
  unfold match_key.
  apply sound_bind; [apply sound_peek_category_is | intros i].
  destruct i.
  - apply sound_bind; [apply sound_advance | intros; apply sound_ret].
  - apply sound_bind; [apply sound_peek_category_is | intros k].
    destruct k; [apply sound_match | apply sound_ret].
Qed.

Create HintDb parser_sound.
#[local] Hint Resolve sound_ret sound_out_of_fuel sound_error sound_token_at
  sound_at_end sound_peek sound_previous sound_next sound_advance
  sound_peek_category_is sound_peek_value_is sound_match sound_match_next
  sound_consume sound_match_key : parser_sound.

Ltac sound_step :=
  first
    [ assumption
    | solve [auto 2 with parser_sound]
    | apply sound_bind; [| intros ?]
    | match goal with
      | |- sound _ _ (if ?b then _ else _) => destruct b
      end ].

Lemma binary_loop_sound tokens E values operand :
  sound tokens E operand ->
  forall fuel e, sound tokens E (binary_loop tokens values operand fuel e).
Proof.
  intros O. induction fuel as [|fuel IH]; intros e; cbn [binary_loop];
    repeat sound_step.
Qed.

Lemma cast_loop_sound tokens E :
  forall fuel e, sound tokens E (cast_loop tokens fuel e).
Proof.
  induction fuel as [|fuel IH]; intros e; cbn [cast_loop];
    repeat sound_step.
Qed.

Lemma args_loop_sound tokens E expr :
  sound tokens E expr ->
  forall fuel args, sound tokens E (args_loop tokens expr fuel args).
Proof.
  intros O. induction fuel as [|fuel IH]; intros args; cbn [args_loop];
    repeat sound_step.
Qed.

Lemma cascade_sound tokens E : forall fuel,
  sound tokens E (expression tokens fuel) /\
  sound tokens E (equality tokens fuel) /\
  sound tokens E (comparison tokens fuel) /\
  sound tokens E (cast tokens fuel) /\
  sound tokens E (term tokens fuel) /\
  sound tokens E (factor tokens fuel) /\
  sound tokens E (remainder tokens fuel) /\
  sound tokens E (unary tokens fuel) /\
  sound tokens E (primary tokens fuel).
Proof.
  induction fuel as [|fuel (X & Q & C & K & T & F & R & U & P)].
  - repeat split; apply sound_out_of_fuel.
  - repeat split;
      cbn [expression equality comparison cast term factor remainder unary
           primary];
      repeat first
        [ apply binary_loop_sound; assumption
        | apply cast_loop_sound
        | apply args_loop_sound; assumption
        | sound_step ].
Qed.

Lemma expression_sound tokens E fuel : sound tokens E (expression tokens fuel).
Proof. apply cascade_sound. Qed.

Lemma variable_declaration_sound tokens E fuel :
  sound tokens E (variable_declaration tokens fuel).
Proof.
  pose proof (expression_sound tokens E fuel).
  unfold variable_declaration. repeat sound_step.
Qed.

Lemma variable_assignment_sound tokens E fuel :
  sound tokens E (variable_assignment tokens fuel).
Proof.
  pose proof (expression_sound tokens E fuel).
  unfold variable_assignment. repeat sound_step.
Qed.

Lemma return_statement_sound tokens E fuel :
  sound tokens E (return_statement tokens fuel).
Proof.
  pose proof (expression_sound tokens E fuel).
  unfold return_statement. repeat sound_step.
Qed.

Lemma function_call_sound tokens E fuel :
  sound tokens E (function_call tokens fuel).
Proof.
  pose proof (expression_sound tokens E fuel).
  unfold function_call.
  repeat first [ apply args_loop_sound; assumption | sound_step ].
Qed.

Lemma scope_loop_sound tokens E stmt :
  sound tokens E stmt ->
  forall fuel ast, sound tokens E (scope_loop tokens stmt fuel ast).
Proof.
  intros O. induction fuel as [|fuel IH]; intros ast; cbn [scope_loop];
    repeat sound_step.
Qed.

Lemma statements_sound tokens E : forall fuel,
  sound tokens E (statement tokens fuel) /\
  sound tokens E (scope_declaration tokens fuel) /\
  sound tokens E (conditional_statement tokens fuel) /\
  sound tokens E (while_loop_statement tokens fuel).
Proof.
  induction fuel as [|fuel (S & B & C & W)].
  - repeat split; apply sound_out_of_fuel.
  - pose proof (expression_sound tokens E fuel).
    repeat split;
      cbn [statement scope_declaration conditional_statement
           while_loop_statement]; cbv zeta;
      repeat first
        [ apply scope_loop_sound; assumption
        | apply variable_declaration_sound
        | apply variable_assignment_sound
        | apply return_statement_sound
        | apply function_call_sound
        | sound_step ].
Qed.

Lemma statement_sound tokens E fuel : sound tokens E (statement tokens fuel).
Proof. apply statements_sound. Qed.

Lemma params_loop_sound tokens E : forall fuel tys ids,
  sound tokens E (params_loop tokens fuel tys ids).
Proof.
  induction fuel as [|fuel IH]; intros tys ids; cbn [params_loop];
    repeat sound_step.
Qed.

Lemma function_declaration_sound tokens E fuel :
  sound tokens E (function_declaration tokens fuel).
Proof.
  pose proof (statement_sound tokens E fuel).
  unfold function_declaration.
  repeat first [ apply params_loop_sound | sound_step ].
Qed.

Lemma global_statement_sound tokens fuel :
  sound tokens unexpected_global (global_statement tokens fuel).
Proof.
  pose proof (function_declaration_sound tokens unexpected_global fuel).
  unfold global_statement. cbv zeta.
  repeat first [ apply sound_throw; reflexivity | sound_step ].
Qed.

Lemma parse_loop_sound tokens : forall fuel l,
  sound tokens unexpected_global (parse_loop tokens fuel l).
Proof.
  induction fuel as [|fuel IH]; intros l; cbn [parse_loop];
    repeat first [ apply global_statement_sound | sound_step ].
Qed.

(** ** Progress *)

Lemma moves_never tokens {A} (p : M A) :
  (forall s a s', p s <> Return a s') -> moves tokens p.
Proof. intros N s a s' _ E. destruct (N s a s' E). Qed.

Lemma moves_out_of_fuel tokens {A} : moves tokens (@out_of_fuel A).
Proof. apply moves_never. discriminate. Qed.

Lemma moves_error tokens {A} msg : moves tokens (@error A msg).
Proof. apply moves_never. discriminate. Qed.

Lemma moves_throw tokens {A} msg : moves tokens (@throw A msg).
Proof. apply moves_never. discriminate. Qed.

Lemma moves_advance tokens : moves tokens (advance tokens).
Proof.
  intros s a s' L E.
  destruct (advance_cases tokens s) as [(_ & t & _ & R) | (B & _)]; [|lia].
  rewrite R in E. inversion E. simpl. lia.
Qed.

Lemma moves_consume tokens type message :
  moves tokens (consume tokens type message).
Proof.
  intros s a s' L. unfold consume, bind at 1.
  unfold peek_value_is, bind at 1. rewrite peek_spec.
  destruct (nth_error tokens (current s)) as [t|] eqn:N; [|discriminate].
  cbn [ret]. destruct (String.eqb _ _); [|discriminate].
  unfold bind, get_current, token_at, set_current, ret. rewrite N.
  intros E. inversion E. simpl. lia.
Qed.

Lemma moves_bind_l tokens E {A B} (p : M A) (k : A -> M B) :
  moves tokens p -> (forall a, sound tokens E (k a)) ->
  moves tokens (bind p k).
Proof.
  intros P K s b s' L. unfold bind.
  destruct (p s) as [a s1 | | |] eqn:R; try discriminate.
  intros R2. specialize (P s a s1 L R). specialize (K a s1).
  rewrite R2 in K. lia.
Qed.

Lemma moves_bind_r tokens E {A B} (p : M A) (k : A -> M B) :
  sound tokens E p -> (forall a, sound tokens E (k a)) ->
  (forall a, moves tokens (k a)) ->
  moves tokens (bind p k).
Proof.
  intros P K Mk s b s' L. unfold bind.
  specialize (P s).
  destruct (p s) as [a s1 | | |] eqn:R; try discriminate.
  intros R2. specialize (K a s1). specialize (Mk a s1 b s').
  rewrite R2 in K.
  destruct (Nat.eq_dec (current s1) (current s)) as [Q | Q]; [|lia].
  rewrite Q in Mk. specialize (Mk L R2). lia.
Qed.

Lemma moves_test tokens E {A} (p : M bool) (X Y : M A) :
  test tokens p -> sound tokens E X -> moves tokens Y ->
  moves tokens (bind p (fun b => if b then X else Y)).
Proof.
  intros P SX MY s a s' L. unfold bind. specialize (P s).
  destruct (p s) as [b s1 | | |]; try discriminate.
  destruct b.
  - destruct P as [_ ->]. intros R. specialize (SX (mkFields (current s + 1) (success s))).
    rewrite R in SX. simpl in SX. lia.
  - subst s1. apply MY, L.
Qed.

Lemma test_match tokens values : test tokens (match_ tokens values).
Proof.
  intros s. destruct (nth_error tokens (current s)) as [t|] eqn:N.
  - destruct (Lexer.mem (value t) values) eqn:V.
    + rewrite (match_hit tokens s t N values V). split; [|reflexivity].
      apply nth_error_Some. rewrite N. discriminate.
    + rewrite (match_miss tokens values s t N V). reflexivity.
  - destruct values as [|v values]; cbn [match_]; [reflexivity|].
    unfold bind. rewrite peek_spec, N. exact I.
Qed.

Lemma test_match_key tokens : test tokens (match_key tokens).
Proof.
  intros s. unfold match_key, bind at 1, peek_category_is, bind at 1.
  rewrite peek_spec.
  destruct (nth_error tokens (current s)) as [t|] eqn:N; [|exact I].
  cbn [ret]. destruct (Category_eqb (category t) IDENTIFIER).
  - rewrite (bind_Return _ _ _ _ _ (advance_spec tokens s t N)). simpl.
    split; [|reflexivity]. apply nth_error_Some. rewrite N. discriminate.
  - unfold bind at 1, bind at 1. rewrite peek_spec, N. cbn [ret].
    destruct (Category_eqb _ _); [apply test_match | reflexivity].
Qed.

Create HintDb parser_moves.
#[local] Hint Resolve moves_out_of_fuel moves_error moves_throw moves_advance
  moves_consume : parser_moves.

Ltac sound_all :=
  repeat first
    [ apply binary_loop_sound
    | apply cast_loop_sound
    | apply args_loop_sound
    | apply scope_loop_sound
    | apply params_loop_sound
    | apply expression_sound
    | apply statement_sound
    | apply (proj1 (proj2 (statements_sound _ _ _)))
    | apply (proj1 (proj2 (proj2 (statements_sound _ _ _))))
    | apply (proj2 (proj2 (proj2 (statements_sound _ _ _))))
    | apply variable_declaration_sound
    | apply variable_assignment_sound
    | apply return_statement_sound
    | apply function_call_sound
    | apply function_declaration_sound
    | apply (proj1 (proj2 (cascade_sound _ _ _)))
    | apply (proj1 (proj2 (proj2 (cascade_sound _ _ _))))
    | apply (proj1 (proj2 (proj2 (proj2 (cascade_sound _ _ _)))))
    | apply (proj1 (proj2 (proj2 (proj2 (proj2 (cascade_sound _ _ _))))))
    | apply (proj1 (proj2 (proj2 (proj2 (proj2 (proj2 (cascade_sound _ _ _)))))))
    | apply (proj1 (proj2 (proj2 (proj2 (proj2 (proj2 (proj2
               (cascade_sound _ _ _))))))))
    | apply (proj1 (proj2 (proj2 (proj2 (proj2 (proj2 (proj2 (proj2
               (cascade_sound _ _ _)))))))))
    | apply (proj2 (proj2 (proj2 (proj2 (proj2 (proj2 (proj2 (proj2
               (cascade_sound _ _ _)))))))))
    | sound_step ].

Ltac moves_step E :=
  first
    [ assumption
    | solve [auto 2 with parser_moves]
    | apply (moves_test _ E);
        [ first [apply test_match | apply test_match_key]
        | solve [sound_all] | ]
    | apply (moves_bind_l _ E);
        [ first [assumption | solve [auto 2 with parser_moves]]
        | intros ?; solve [sound_all] ]
    | apply (moves_bind_r _ E);
        [ solve [sound_all] | intros ?; solve [sound_all] | intros ? ]
    | match goal with
      | |- moves _ (if ?b then _ else _) => destruct b
      end ].

Lemma cascade_moves tokens : forall fuel,
  moves tokens (expression tokens fuel) /\
  moves tokens (equality tokens fuel) /\
  moves tokens (comparison tokens fuel) /\
  moves tokens (cast tokens fuel) /\
  moves tokens (term tokens fuel) /\
  moves tokens (factor tokens fuel) /\
  moves tokens (remainder tokens fuel) /\
  moves tokens (unary tokens fuel) /\
  moves tokens (primary tokens fuel).
Proof.
  induction fuel as [|fuel (X & Q & C & K & T & F & R & U & P)].
  - repeat split; apply moves_out_of_fuel.
  - repeat split;
      cbn [expression equality comparison cast term factor remainder unary
           primary];
      repeat moves_step never.
Qed.

Lemma expression_moves tokens fuel : moves tokens (expression tokens fuel).
Proof. apply cascade_moves. Qed.

Lemma variable_assignment_moves tokens fuel :
  moves tokens (variable_assignment tokens fuel).
Proof. unfold variable_assignment. repeat moves_step never. Qed.

Lemma function_call_moves tokens fuel :
  moves tokens (function_call tokens fuel).
Proof. unfold function_call. repeat moves_step never. Qed.

Lemma statement_moves tokens fuel : moves tokens (statement tokens fuel).
Proof.
  destruct fuel as [|fuel]; [apply moves_out_of_fuel|].
  pose proof (expression_moves tokens fuel).
  pose proof (variable_assignment_moves tokens fuel).
  pose proof (function_call_moves tokens fuel).
  cbn [statement]; cbv zeta.
  repeat moves_step never.
Qed.

(** [match({"void"}) || match_key()] is one test. *)
Lemma test_void_or_key tokens :
  test tokens (bind (match_ tokens ["void"])
                 (fun v => if v then ret true else match_key tokens)).
Proof.
  intros s. unfold bind.
  pose proof (test_match tokens ["void"] s) as V.
  destruct (match_ tokens ["void"] s) as [[|] s1 | | |]; auto.
  subst s1. apply test_match_key.
Qed.

Lemma bind_assoc {A B C} (p : M A) (k : A -> M B) (h : B -> M C) s :
  bind (bind p k) h s = bind p (fun a => bind (k a) h) s.
Proof. unfold bind. destruct (p s); reflexivity. Qed.

Lemma global_statement_moves tokens fuel :
  moves tokens (global_statement tokens fuel).
Proof.
  unfold global_statement. cbv zeta.
  intros s a s' L E. rewrite <- bind_assoc in E. revert s a s' L E.
  apply (moves_test _ unexpected_global); [apply test_void_or_key | |].
  - repeat first
      [ apply sound_throw; reflexivity
      | apply function_declaration_sound
      | sound_step ].
  - apply moves_throw.
Qed.

(** ** Termination *)

Lemma free_ret {A} (a : A) : fuel_free (ret a).
Proof. intros s. discriminate. Qed.

Lemma free_bind {A B} (p : M A) (k : A -> M B) :
  fuel_free p -> (forall a, fuel_free (k a)) -> fuel_free (bind p k).
Proof.
  intros P K s. unfold bind. specialize (P s).
  destruct (p s); try discriminate; [apply K | contradiction].
Qed.

Lemma free_of_stays {A} (p : M A) : stays p -> fuel_free p.
Proof. intros S s E. specialize (S s). rewrite E in S. exact S. Qed.

Lemma stays_of_looks tokens {A} (p : M A) : looks tokens p -> stays p.
Proof.
  intros L s. specialize (L s). destruct (p s); auto. apply L.
Qed.

Lemma looks_peek tokens : looks tokens (peek tokens).
Proof.
  intros s. rewrite peek_spec.
  destruct (nth_error tokens (current s)) eqn:N; [|exact I].
  split; [reflexivity|]. apply nth_error_Some. rewrite N. discriminate.
Qed.

Lemma looks_bind_ret tokens {A B} (p : M A) (f : A -> B) :
  looks tokens p -> looks tokens (bind p (fun a => ret (f a))).
Proof.
  intros L s. unfold bind. specialize (L s). destruct (p s); auto.
Qed.

Lemma looks_peek_category_is tokens c :
  looks tokens (peek_category_is tokens c).
Proof. apply looks_bind_ret, looks_peek. Qed.

Lemma looks_peek_value_is tokens v : looks tokens (peek_value_is tokens v).
Proof. apply looks_bind_ret, looks_peek. Qed.

Lemma looks_next tokens : looks tokens (next tokens).
Proof.
  intros s. rewrite next_spec.
  destruct (Nat.leb_spec (length tokens) (current s)) as [L | L].
  - apply looks_peek.
  - destruct (nth_error _ _); auto.
Qed.

Lemma stays_match_next tokens values : stays (match_next tokens values).
Proof.
  induction values as [|v values IH]; intros s; cbn [match_next];
    [reflexivity|].
  unfold bind. pose proof (looks_next tokens s) as L.
  destruct (next tokens s) as [t s1 | | |]; auto.
  destruct L as [-> _].
  destruct (String.eqb _ _); [reflexivity | apply IH].
Qed.

Lemma free_previous tokens : fuel_free (previous tokens).
Proof.
  intros s. unfold previous, bind, get_current, token_at.
  destruct (current s); [discriminate|].
  destruct (nth_error _ _); discriminate.
Qed.

Lemma free_advance tokens : fuel_free (advance tokens).
Proof.
  intros s. destruct (advance_cases tokens s) as [(_ & t & _ & ->) | (_ & ->)];
    [discriminate | apply free_previous].
Qed.

Lemma free_test tokens p : test tokens p -> fuel_free p.
Proof. intros T s E. specialize (T s). rewrite E in T. exact T. Qed.

Lemma free_consume tokens type message :
  fuel_free (consume tokens type message).
Proof.
  intros s E. pose proof (sound_consume tokens never type message s) as S.
  unfold consume, bind at 1 in E.
  unfold peek_value_is, bind at 1 in E. rewrite peek_spec in E.
  destruct (nth_error tokens (current s)) as [t|] eqn:N; [|discriminate].
  cbn [ret] in E. destruct (String.eqb _ _); [|discriminate].
  unfold bind, get_current, token_at, set_current, ret in E.
  rewrite N in E. discriminate.
Qed.

Lemma free_error {A} msg : fuel_free (@error A msg).
Proof. intros s. discriminate. Qed.

Lemma free_throw {A} msg : fuel_free (@throw A msg).
Proof. intros s. discriminate. Qed.

Create HintDb parser_free.
#[local] Hint Resolve free_ret free_previous free_advance free_consume
  free_error free_throw : parser_free.
#[local] Hint Extern 1 (fuel_free (match_ _ _)) =>
  apply (free_test _ _ (test_match _ _)) : parser_free.
#[local] Hint Extern 1 (fuel_free (match_key _)) =>
  apply (free_test _ _ (test_match_key _)) : parser_free.
#[local] Hint Extern 1 (fuel_free (peek _)) =>
  apply free_of_stays, (stays_of_looks _ _ (looks_peek _)) : parser_free.
#[local] Hint Extern 1 (fuel_free (peek_category_is _ _)) =>
  apply free_of_stays, (stays_of_looks _ _ (looks_peek_category_is _ _))
  : parser_free.
#[local] Hint Extern 1 (fuel_free (peek_value_is _ _)) =>
  apply free_of_stays, (stays_of_looks _ _ (looks_peek_value_is _ _))
  : parser_free.
#[local] Hint Extern 1 (fuel_free (next _)) =>
  apply free_of_stays, (stays_of_looks _ _ (looks_next _)) : parser_free.
#[local] Hint Extern 1 (fuel_free (match_next _ _)) =>
  apply free_of_stays, stays_match_next : parser_free.

Ltac free_tac :=
  repeat first
    [ solve [auto 2 with parser_free]
    | apply free_bind; [| intros ?]
    | match goal with
      | |- fuel_free (if ?b then _ else _) => destruct b
      end ].

(** The rules by which the bound on the tokens left is carried through a
    method. *)
Section Rules.

Variable tokens : list Token.

Lemma fin_free n {A} (p : M A) : fuel_free p -> fin tokens n p.
Proof. intros F s _. apply F. Qed.

Lemma fin_weaken n m {A} (p : M A) :
  m <= n -> fin tokens n p -> fin tokens m p.
Proof. intros L F s R. apply F. lia. Qed.

Lemma fin_bind n E {A B} (p : M A) (k : A -> M B) :
  fin tokens n p -> sound tokens E p -> (forall a, fin tokens n (k a)) ->
  fin tokens n (bind p k).
Proof.
  intros P S K s R. unfold bind. specialize (P s R). specialize (S s).
  destruct (p s) as [a s1 | | |]; try discriminate; [|contradiction].
  apply K. lia.
Qed.

Lemma fin_test n {A} (p : M bool) (X Y : M A) :
  test tokens p -> (forall m, m < n -> fin tokens m X) -> fin tokens n Y ->
  fin tokens n (bind p (fun b => if b then X else Y)).
Proof.
  intros T FX FY s R. unfold bind. specialize (T s).
  destruct (p s) as [[|] s1 | | |]; try discriminate; try contradiction.
  - destruct T as [L ->]. apply (FX (length tokens - current s - 1)); simpl; lia.
  - subst s1. apply FY, R.
Qed.

Lemma fin_look n {A B} (p : M A) (k : A -> M B) :
  looks tokens p -> (forall a, fin_in tokens n (k a)) ->
  fin tokens n (bind p k).
Proof.
  intros L K s R. unfold bind. specialize (L s).
  destruct (p s) as [a s1 | | |]; try discriminate; try contradiction.
  destruct L as [-> L]. apply K; assumption.
Qed.

Lemma fin_in_of_fin n {A} (p : M A) : fin tokens n p -> fin_in tokens n p.
Proof. intros F s _ R. apply F, R. Qed.

Lemma fin_in_zero {A} (p : M A) : fin_in tokens 0 p.
Proof. intros s L R. lia. Qed.

Lemma fin_in_stay n {A B} (p : M A) (k : A -> M B) :
  stays p -> (forall a, fin_in tokens n (k a)) ->
  fin_in tokens n (bind p k).
Proof.
  intros S K s L R. unfold bind. specialize (S s).
  destruct (p s) as [a s1 | | |]; try discriminate; try contradiction.
  subst s1. apply K; assumption.
Qed.

Lemma fin_in_test n {A} (p : M bool) (X Y : M A) :
  test tokens p -> (forall m, m < n -> fin tokens m X) ->
  fin_in tokens n Y ->
  fin_in tokens n (bind p (fun b => if b then X else Y)).
Proof.
  intros T FX FY s L R. unfold bind. specialize (T s).
  destruct (p s) as [[|] s1 | | |]; try discriminate; try contradiction.
  - destruct T as [_ ->]. apply (FX (length tokens - current s - 1)); simpl; lia.
  - subst s1. apply FY; assumption.
Qed.

Lemma fin_in_moves n {A B} (p : M A) (k : A -> M B) :
  fin tokens n p -> moves tokens p ->
  (forall a m, m < n -> fin tokens m (k a)) ->
  fin_in tokens n (bind p k).
Proof.
  intros P Mv K s L R. unfold bind. specialize (P s R).
  destruct (p s) as [a s1 | | |] eqn:E; try discriminate; [|contradiction].
  specialize (Mv s a s1 L E).
  apply (K a (length tokens - current s1)); lia.
Qed.

End Rules.

Section Loops.

Variable tokens : list Token.

Lemma binary_loop_fin values operand : forall fuel n e,
  n <= fuel -> fin tokens n operand -> sound tokens never operand ->
  fin tokens n (binary_loop tokens values operand fuel e).
Proof.
  induction fuel as [|fuel IH]; intros n e L F S; cbn [binary_loop];
    (apply fin_test; [apply test_match | | apply fin_free, free_ret]);
    intros m B; [lia|].
  apply (fin_bind _ _ never); [apply fin_free, free_previous
                              | apply sound_previous | intros op].
  apply (fin_bind _ _ never); [apply (fin_weaken _ n); [lia | exact F]
                              | exact S | intros right].
  apply IH; [lia | apply (fin_weaken _ n); [lia | exact F] | exact S].
Qed.

Lemma cast_loop_fin : forall fuel n e,
  n <= fuel -> fin tokens n (cast_loop tokens fuel e).
Proof.
  induction fuel as [|fuel IH]; intros n e L; cbn [cast_loop];
    (apply fin_test; [apply test_match | | apply fin_free, free_ret]);
    intros m B; [lia|].
  apply (fin_bind _ _ never); [apply fin_free, free_advance
                              | apply sound_advance | intros t].
  apply IH. lia.
Qed.

Lemma args_loop_fin expr : forall fuel n args,
  n <= fuel -> fin tokens n expr -> sound tokens never expr ->
  moves tokens expr ->
  fin tokens n (args_loop tokens expr fuel args).
Proof.
  induction fuel as [|fuel IH]; intros n args L F S Mv; cbn [args_loop];
    (apply fin_look; [apply looks_peek_value_is | intros p]);
    (destruct p; cbn [negb]; [apply fin_in_of_fin, fin_free, free_ret|]).
  - replace n with 0 by lia. apply fin_in_zero.
  - apply fin_in_moves; [exact F | exact Mv | intros e m B].
    apply (fin_bind _ _ never);
      [apply fin_free; free_tac | apply sound_peek_value_is | intros p'].
    apply (fin_bind _ _ never);
      [apply fin_free; free_tac | sound_all | intros _].
    apply IH; [lia | apply (fin_weaken _ n); [lia | exact F] | exact S
               | exact Mv].
Qed.

Lemma scope_loop_fin stmt : forall fuel n ast,
  n <= fuel -> fin tokens n stmt -> moves tokens stmt ->
  fin tokens n (scope_loop tokens stmt fuel ast).
Proof.
  induction fuel as [|fuel IH]; intros n ast L F Mv; cbn [scope_loop];
    (apply fin_look; [apply looks_peek_value_is | intros p]);
    (destruct p; cbn [negb]; [apply fin_in_of_fin, fin_free, free_ret|]).
  - replace n with 0 by lia. apply fin_in_zero.
  - apply fin_in_moves; [exact F | exact Mv | intros e m B].
    apply IH; [lia | apply (fin_weaken _ n); [lia | exact F] | exact Mv].
Qed.

Lemma params_loop_fin : forall fuel n tys ids,
  n <= fuel -> fin tokens n (params_loop tokens fuel tys ids).
Proof.
  induction fuel as [|fuel IH]; intros n tys ids L; cbn [params_loop];
    (apply fin_look; [apply looks_peek_value_is | intros p]);
    (destruct p; cbn [negb]; [apply fin_in_of_fin, fin_free, free_ret|]).
  - replace n with 0 by lia. apply fin_in_zero.
  - apply fin_in_moves;
      [apply fin_free, free_advance | apply moves_advance | intros ty m B].
    apply (fin_bind _ _ never);
      [apply fin_free, free_advance | apply sound_advance | intros id].
    apply (fin_bind _ _ never);
      [apply fin_free; free_tac | apply sound_peek_value_is | intros p'].
    apply (fin_bind _ _ never);
      [apply fin_free; free_tac | sound_all | intros _].
    apply IH. lia.
Qed.

End Loops.

Section Bounds.

Variable tokens : list Token.

(** Fuel that suffices for each level of the cascade with [n] tokens
    left: nine nested calls for each token. *)
Lemma cascade_fin : forall n,
  (forall fuel, 9 * n + 1 <= fuel -> fin tokens n (primary tokens fuel)) /\
  (forall fuel, 9 * n + 2 <= fuel -> fin tokens n (unary tokens fuel)) /\
  (forall fuel, 9 * n + 3 <= fuel -> fin tokens n (remainder tokens fuel)) /\
  (forall fuel, 9 * n + 4 <= fuel -> fin tokens n (factor tokens fuel)) /\
  (forall fuel, 9 * n + 5 <= fuel -> fin tokens n (term tokens fuel)) /\
  (forall fuel, 9 * n + 6 <= fuel -> fin tokens n (cast tokens fuel)) /\
  (forall fuel, 9 * n + 7 <= fuel -> fin tokens n (comparison tokens fuel)) /\
  (forall fuel, 9 * n + 8 <= fuel -> fin tokens n (equality tokens fuel)) /\
  (forall fuel, 9 * n + 9 <= fuel -> fin tokens n (expression tokens fuel)).
Proof.
  induction n as [n IH] using lt_wf_ind.
  assert (IHx : forall m fuel, m < n -> 9 * m + 9 <= fuel ->
            fin tokens m (expression tokens fuel))
    by (intros m fuel B; apply (IH m B)).
  assert (IHu : forall m fuel, m < n -> 9 * m + 2 <= fuel ->
            fin tokens m (unary tokens fuel))
    by (intros m fuel B; apply (IH m B)).
  clear IH.
  assert (P : forall fuel, 9 * n + 1 <= fuel ->
            fin tokens n (primary tokens fuel)).
  { intros [|f] L; [lia|]. cbn [primary].
    apply fin_look; [apply looks_peek_category_is | intros c].
    destruct c; [apply fin_in_of_fin, fin_free; free_tac|].
    apply fin_in_stay;
      [apply (stays_of_looks tokens), looks_peek_category_is | intros c].
    destruct c; [apply fin_in_of_fin, fin_free; free_tac|].
    apply fin_in_stay;
      [apply (stays_of_looks tokens), looks_peek_category_is | intros c].
    destruct c; [apply fin_in_of_fin, fin_free; free_tac|].
    apply fin_in_stay;
      [apply (stays_of_looks tokens), looks_peek_category_is | intros c].
    destruct c; [apply fin_in_of_fin, fin_free; free_tac|].
    apply fin_in_stay;
      [apply (stays_of_looks tokens), looks_peek_category_is | intros c].
    destruct c.
    - apply fin_in_stay;
        [apply (stays_of_looks tokens), looks_next | intros t].
      destruct (String.eqb _ _); [|apply fin_in_of_fin, fin_free; free_tac].
      apply fin_in_moves;
        [apply fin_free, free_advance | apply moves_advance | intros a m B].
      apply (fin_bind _ _ never);
        [apply fin_free, free_advance | apply sound_advance | intros _].
      apply (fin_bind _ _ never).
      + apply args_loop_fin; [lia | apply IHx; lia | apply expression_sound
                              | apply expression_moves].
      + apply args_loop_sound, expression_sound.
      + intros args. apply fin_free; free_tac.
    - apply fin_in_test; [apply test_match | intros m B
                          | apply fin_in_of_fin, fin_free; free_tac].
      apply (fin_bind _ _ never);
        [apply IHx; lia | apply expression_sound | intros e].
      apply fin_free; free_tac. }
  assert (U : forall fuel, 9 * n + 2 <= fuel ->
            fin tokens n (unary tokens fuel)).
  { intros [|f] L; [lia|]. cbn [unary].
    apply fin_test; [apply test_match | intros m B | apply P; lia].
    apply (fin_bind _ _ never);
      [apply fin_free, free_previous | apply sound_previous | intros op].
    apply (fin_bind _ _ never);
      [apply IHu; lia | sound_all | intros right].
    apply fin_free, free_ret. }
  assert (level : forall values operand f,
            n <= f -> fin tokens n operand -> sound tokens never operand ->
            fin tokens n
              (bind operand (binary_loop tokens values operand f))).
  { intros values operand f L F S0.
    apply (fin_bind _ _ never); [exact F | exact S0 | intros e].
    apply binary_loop_fin; assumption. }
  assert (R : forall fuel, 9 * n + 3 <= fuel ->
            fin tokens n (remainder tokens fuel)).
  { intros [|f] L; [lia|]. cbn [remainder].
    apply level; [lia | apply U; lia | sound_all]. }
  assert (F : forall fuel, 9 * n + 4 <= fuel ->
            fin tokens n (factor tokens fuel)).
  { intros [|f] L; [lia|]. cbn [factor].
    apply level; [lia | apply R; lia | sound_all]. }
  assert (T : forall fuel, 9 * n + 5 <= fuel ->
            fin tokens n (term tokens fuel)).
  { intros [|f] L; [lia|]. cbn [term].
    apply level; [lia | apply F; lia | sound_all]. }
  assert (K : forall fuel, 9 * n + 6 <= fuel ->
            fin tokens n (cast tokens fuel)).
  { intros [|f] L; [lia|]. cbn [cast].
    apply (fin_bind _ _ never); [apply T; lia | sound_all | intros e].
    apply cast_loop_fin. lia. }
  assert (C : forall fuel, 9 * n + 7 <= fuel ->
            fin tokens n (comparison tokens fuel)).
  { intros [|f] L; [lia|]. cbn [comparison].
    apply level; [lia | apply K; lia | sound_all]. }
  assert (Q : forall fuel, 9 * n + 8 <= fuel ->
            fin tokens n (equality tokens fuel)).
  { intros [|f] L; [lia|]. cbn [equality].
    apply level; [lia | apply C; lia | sound_all]. }
  repeat split; try assumption.
  intros [|f] L; [lia|]. cbn [expression]. apply Q. lia.
Qed.

Lemma expression_fin n fuel :
  9 * n + 9 <= fuel -> fin tokens n (expression tokens fuel).
Proof. apply cascade_fin. Qed.

End Bounds.

Section StatementBounds.

Variable tokens : list Token.

Ltac chain :=
  repeat first
    [ apply fin_free; solve [free_tac]
    | match goal with
      | |- fin _ _ (if ?b then _ else _) => destruct b
      end
    | assumption
    | apply (fin_bind _ _ never); [| solve [sound_all] | intros ?] ].

Lemma variable_declaration_fin n fuel :
  9 * n + 9 <= fuel -> fin tokens n (variable_declaration tokens fuel).
Proof.
  intros L. pose proof (expression_fin tokens n fuel L).
  unfold variable_declaration. chain.
Qed.

Lemma variable_assignment_fin n fuel :
  9 * n + 9 <= fuel -> fin tokens n (variable_assignment tokens fuel).
Proof.
  intros L. pose proof (expression_fin tokens n fuel L).
  unfold variable_assignment. chain.
Qed.

Lemma return_statement_fin n fuel :
  9 * n + 9 <= fuel -> fin tokens n (return_statement tokens fuel).
Proof.
  intros L. pose proof (expression_fin tokens n fuel L).
  unfold return_statement. chain.
Qed.

Lemma function_call_fin n fuel :
  9 * n + 9 <= fuel -> fin tokens n (function_call tokens fuel).
Proof.
  intros L.
  assert (fin tokens n (args_loop tokens (expression tokens fuel) fuel []))
    by (apply args_loop_fin;
        [lia | apply expression_fin, L | apply expression_sound
         | apply expression_moves]).
  unfold function_call. chain.
Qed.

Lemma statements_fin : forall n,
  (forall fuel, 9 * n + 10 <= fuel -> fin tokens n (statement tokens fuel)) /\
  (forall fuel, 9 * n + 11 <= fuel ->
     fin tokens n (scope_declaration tokens fuel)) /\
  (forall fuel, 9 * n + 11 <= fuel ->
     fin tokens n (conditional_statement tokens fuel)) /\
  (forall fuel, 9 * n + 11 <= fuel ->
     fin tokens n (while_loop_statement tokens fuel)).
Proof.
  induction n as [n IH] using lt_wf_ind.
  assert (S0 : forall fuel, 9 * n + 10 <= fuel ->
            fin tokens n (statement tokens fuel)).
  { intros [|f] L; [lia|]. cbn [statement]; cbv zeta.
    pose proof (expression_fin tokens n f ltac:(lia)).
    pose proof (variable_declaration_fin n f ltac:(lia)).
    pose proof (variable_assignment_fin n f ltac:(lia)).
    pose proof (function_call_fin n f ltac:(lia)).
    apply fin_test; [apply test_match | intros m B; apply (IH m B); lia |].
    apply fin_test; [apply test_match | intros m B; apply (IH m B); lia |].
    apply fin_test; [apply test_match | intros m B; apply (IH m B); lia |].
    apply fin_test;
      [apply test_match | intros m B; apply return_statement_fin; lia |].
    chain. }
  split; [exact S0|].
  split; [|split].
  - intros [|f] L; [lia|]. cbn [scope_declaration].
    apply (fin_bind _ _ never);
      [| apply scope_loop_sound, statement_sound | intros ast].
    + apply scope_loop_fin; [lia | apply S0; lia | apply statement_moves].
    + apply fin_free; free_tac.
  - intros [|f] L; [lia|]. cbn [conditional_statement].
    pose proof (expression_fin tokens n f ltac:(lia)).
    pose proof (S0 f ltac:(lia)).
    chain.
  - intros [|f] L; [lia|]. cbn [while_loop_statement].
    pose proof (expression_fin tokens n f ltac:(lia)).
    pose proof (S0 f ltac:(lia)).
    chain.
Qed.

Lemma statement_fin n fuel :
  9 * n + 10 <= fuel -> fin tokens n (statement tokens fuel).
Proof. apply statements_fin. Qed.

Lemma function_declaration_fin n fuel :
  9 * n + 10 <= fuel -> fin tokens n (function_declaration tokens fuel).
Proof.
  intros L. pose proof (statement_fin n fuel L).
  assert (fin tokens n (params_loop tokens fuel [] []))
    by (apply params_loop_fin; lia).
  unfold function_declaration. chain.
Qed.

Lemma global_statement_fin n fuel :
  9 * n + 10 <= fuel -> fin tokens n (global_statement tokens fuel).
Proof.
  intros L. pose proof (function_declaration_fin n fuel L).
  unfold global_statement. cbv zeta. chain.
Qed.

Lemma parse_loop_fin : forall fuel n l,
  9 * n + 11 <= fuel -> fin tokens n (parse_loop tokens fuel l).
Proof.
  induction fuel as [|fuel IH]; intros n l L; [lia|].
  intros s R. cbn [parse_loop]. unfold bind at 1. rewrite at_end_spec.
  destruct (Nat.leb_spec (length tokens) (current s)) as [B | B];
    [discriminate|].
  cbn [negb]. unfold bind.
  pose proof (global_statement_fin n fuel ltac:(lia) s R) as G.
  destruct (global_statement tokens fuel s) as [node s1 | | |] eqn:E;
    try discriminate; [|contradiction].
  pose proof (global_statement_moves tokens fuel s node s1 B E).
  apply (IH (n - 1)); lia.
Qed.

End StatementBounds.

(** X12. The parser comes to an end on every token vector: within its
    budget it returns, throws or indexes the vector out of bounds, and the
    same holds of [parse] from any cursor with eleven units of fuel plus
    nine for each token left. *)
Theorem parser_terminates tokens :
  Parser tokens <> OutOfFuel /\
  (forall fuel s,
     9 * (length tokens - current s) + 11 <= fuel ->
     parse tokens fuel s <> OutOfFuel).
Proof.
  assert (G : forall fuel s,
     9 * (length tokens - current s) + 11 <= fuel ->
     parse tokens fuel s <> OutOfFuel).
  { intros fuel s L.
    apply (parse_loop_fin tokens fuel (length tokens - current s) [] L s).
    lia. }
  split; [|exact G].
  unfold Parser. apply (G (budget tokens) initial).
  unfold budget, initial. cbn [current]. lia.
Qed.

Lemma parser_terminates_witness :
  parse (tokens_of "void f() { return 1; }") 100 initial <> OutOfFuel.
Proof.
  apply (proj2 (parser_terminates (tokens_of "void f() { return 1; }"))).
  vm_compute. lia.
Defined.

(** ** At the end of the tokens *)

Lemma needs_bind tokens {A B} (p : M A) (k : A -> M B) :
  needs_token tokens p -> needs_token tokens (bind p k).
Proof.
  intros P s L. unfold bind. destruct (P s L) as [-> | ->]; auto.
Qed.

Lemma needs_looks tokens {A} (p : M A) :
  looks tokens p -> needs_token tokens p.
Proof.
  intros K s L. specialize (K s).
  destruct (p s); try contradiction; auto. destruct K. lia.
Qed.

Lemma needs_out_of_fuel tokens {A} : needs_token tokens (@out_of_fuel A).
Proof. intros s _. right. reflexivity. Qed.

Lemma needs_match tokens v values : needs_token tokens (match_ tokens (v :: values)).
Proof. cbn [match_]. apply needs_bind, needs_looks, looks_peek. Qed.

Lemma cascade_needs tokens : forall fuel,
  needs_token tokens (expression tokens fuel) /\
  needs_token tokens (equality tokens fuel) /\
  needs_token tokens (comparison tokens fuel) /\
  needs_token tokens (cast tokens fuel) /\
  needs_token tokens (term tokens fuel) /\
  needs_token tokens (factor tokens fuel) /\
  needs_token tokens (remainder tokens fuel) /\
  needs_token tokens (unary tokens fuel) /\
  needs_token tokens (primary tokens fuel).
Proof.
  induction fuel as [|fuel (X & Q & C & K & T & F & R & U & P)].
  - repeat split; apply needs_out_of_fuel.
  - repeat split;
      cbn [expression equality comparison cast term factor remainder unary
           primary];
      first [ assumption
            | apply needs_bind; first
                [ assumption
                | apply needs_match
                | apply needs_looks, looks_peek_category_is ] ].
Qed.

Lemma statement_needs tokens fuel : needs_token tokens (statement tokens fuel).
Proof.
  destruct fuel; [apply needs_out_of_fuel|].
  cbn [statement]; cbv zeta. apply needs_bind, needs_match.
Qed.

Lemma global_statement_needs tokens fuel :
  needs_token tokens (global_statement tokens fuel).
Proof. unfold global_statement. cbv zeta. apply needs_bind, needs_match. Qed.

(** X13. There is no end-of-input error: entered with the cursor at or past
    the end of the vector, [expression], [statement], [global_statement]
    and [consume] index the vector out of bounds. *)
Theorem end_of_input_is_out_of_bounds tokens s :
  length tokens <= current s ->
  (forall fuel, 9 <= fuel -> expression tokens fuel s = OutOfBounds) /\
  (forall fuel, 10 <= fuel -> statement tokens fuel s = OutOfBounds) /\
  (forall fuel, global_statement tokens fuel s = OutOfBounds) /\
  (forall type message, consume tokens type message s = OutOfBounds).
Proof.
  intros L.
  assert (R : length tokens - current s <= 0) by lia.
  split; [|split; [|split]].
  - intros fuel F.
    destruct (proj1 (cascade_needs tokens fuel) s L) as [E | E]; [exact E|].
    destruct (expression_fin tokens 0 fuel ltac:(lia) s R E).
  - intros fuel F.
    destruct (statement_needs tokens fuel s L) as [E | E]; [exact E|].
    destruct (statement_fin tokens 0 fuel ltac:(lia) s R E).
  - intros fuel.
    assert (N : nth_error tokens (current s) = None)
      by (apply nth_error_None, L).
    unfold global_statement. cbv zeta. cbn [match_]. unfold bind.
    rewrite peek_spec, N. reflexivity.
  - intros type message.
    assert (N : nth_error tokens (current s) = None)
      by (apply nth_error_None, L).
    unfold consume, peek_value_is, bind. rewrite peek_spec, N. reflexivity.
Qed.

Lemma end_of_input_is_out_of_bounds_witness :
  expression (tokens_of "1 +") 9 (mkFields 2 true) = OutOfBounds.
Proof.
  apply (proj1 (end_of_input_is_out_of_bounds (tokens_of "1 +")
                  (mkFields 2 true) ltac:(vm_compute; lia))).
  lia.
Defined.

(** ** What the methods keep, spelled out *)

(** X9. A method that returns has not moved the cursor back, has kept it
    inside the vector if it was inside, and has left [success] as it
    was. *)
Theorem return_keeps_cursor_and_flag tokens fuel s :
  (forall n s', expression tokens fuel s = Return n s' -> kept tokens s s') /\
  (forall n s', statement tokens fuel s = Return n s' -> kept tokens s s') /\
  (forall l s', parse tokens fuel s = Return l s' -> kept tokens s s').
Proof.
  split; [|split].
  - intros n s' E. pose proof (expression_sound tokens never fuel s) as S.
    rewrite E in S. exact S.
  - intros n s' E. pose proof (statement_sound tokens never fuel s) as S.
    rewrite E in S. exact S.
  - intros l s' E. pose proof (parse_loop_sound tokens fuel [] s) as S.
    unfold parse in E. rewrite E in S. exact S.
Qed.

Lemma return_keeps_cursor_and_flag_witness :
  kept (tokens_of "x += 1;") initial (mkFields 4 true).
Proof.
  apply (proj1 (proj2 (return_keeps_cursor_and_flag (tokens_of "x += 1;")
                         10 initial))
           (VariableAssignment "x"
              (BinaryOperation (VariableCall "x") "+" (IntegerLiteral "1")))).
  vm_compute. reflexivity.
Defined.

(** X10. Every exception raised under [statement] or [expression] has
    cleared [success]; out of [parse] the only exception that leaves
    [success] as it was is the one of [global_statement]. *)
Theorem throw_clears_success tokens fuel s :
  (forall msg s', expression tokens fuel s = Throw msg s' ->
                  success s' = false) /\
  (forall msg s', statement tokens fuel s = Throw msg s' ->
                  success s' = false) /\
  (forall msg s', parse tokens fuel s = Throw msg s' ->
     success s' = false \/
     (msg = "Unexpected global statement encountered." /\
      success s' = success s)).
Proof.
  split; [|split].
  - intros msg s' E. pose proof (expression_sound tokens never fuel s) as S.
    rewrite E in S. destruct S as (_ & [S | [[] _]]). exact S.
  - intros msg s' E. pose proof (statement_sound tokens never fuel s) as S.
    rewrite E in S. destruct S as (_ & [S | [[] _]]). exact S.
  - intros msg s' E. pose proof (parse_loop_sound tokens fuel [] s) as S.
    unfold parse in E. rewrite E in S. destruct S as (_ & S). exact S.
Qed.

Lemma throw_clears_success_witness :
  success (mkFields 1 false) = false.
Proof.
  apply (proj1 (proj2 (throw_clears_success
                         (tokens_of "{ let x = 5; }") 20 initial))
           "Unexpected token 'let'").
  vm_compute. reflexivity.
Defined.

(** X11. A returning [expression], [statement] or [global_statement] was
    entered on a token and has consumed one token at least. *)
Theorem return_consumes_a_token tokens fuel s :
  (forall n s', expression tokens fuel s = Return n s' ->
                current s < length tokens /\ current s < current s') /\
  (forall n s', statement tokens fuel s = Return n s' ->
                current s < length tokens /\ current s < current s') /\
  (forall n s', global_statement tokens fuel s = Return n s' ->
                current s < length tokens /\ current s < current s').
Proof.
  assert (G : forall (p : M Node),
            needs_token tokens p -> moves tokens p ->
            forall n s', p s = Return n s' ->
              current s < length tokens /\ current s < current s').
  { intros p N Mv n s' E.
    assert (L : current s < length tokens).
    { destruct (Nat.lt_ge_cases (current s) (length tokens)) as [L | L];
        [exact L|].
      destruct (N s L) as [X | X]; rewrite X in E; discriminate. }
    split; [exact L | apply (Mv s n s' L E)]. }
  split; [|split]; apply G.
  - apply cascade_needs.
  - apply expression_moves.
  - apply statement_needs.
  - apply statement_moves.
  - apply global_statement_needs.
  - apply global_statement_moves.
Qed.

Lemma return_consumes_a_token_witness :
  current initial < length (tokens_of "x += 1;") /\
  current initial < current (mkFields 4 true).
Proof.
  apply (proj1 (proj2 (return_consumes_a_token (tokens_of "x += 1;")
                         10 initial))
           (VariableAssignment "x"
              (BinaryOperation (VariableCall "x") "+" (IntegerLiteral "1")))).
  vm_compute. reflexivity.
Defined.

(** ** What [parse] returns *)

Lemma returns_any {A} (p : M A) : returns (fun _ => True) p.
Proof. intros s a s' _. exact I. Qed.

Lemma returns_ret {A} (Q : A -> Prop) a : Q a -> returns Q (ret a).
Proof. intros q s b s' E. inversion E. subst. exact q. Qed.

Lemma returns_bind {A B} (P : A -> Prop) (Q : B -> Prop) (p : M A)
    (k : A -> M B) :
  returns P p -> (forall a, P a -> returns Q (k a)) ->
  returns Q (bind p k).
Proof.
  intros Rp Rk s b s'. unfold bind.
  destruct (p s) as [a s1 | | |] eqn:E; try discriminate.
  apply (Rk a (Rp s a s1 E)).
Qed.

Lemma returns_never {A} (Q : A -> Prop) (p : M A) :
  (forall s a s', p s <> Return a s') -> returns Q p.
Proof. intros N s a s' E. destruct (N s a s' E). Qed.

Ltac skip_bind := apply (returns_bind (fun _ => True)); [apply returns_any | intros ? _].

Lemma params_loop_returns tokens : forall fuel tys ids,
  length tys = length ids ->
  returns (fun ps => length (fst ps) = length (snd ps))
    (params_loop tokens fuel tys ids).
Proof.
  induction fuel as [|fuel IH]; intros tys ids L; cbn [params_loop];
    skip_bind;
    (match goal with |- returns _ (if ?b then _ else _) => destruct b end;
     [|apply returns_ret; exact L]).
  - apply returns_never. discriminate.
  - do 4 skip_bind. apply IH. rewrite !length_app. simpl. lia.
Qed.

Lemma function_declaration_returns tokens fuel :
  returns is_function_declaration (function_declaration tokens fuel).
Proof.
  unfold function_declaration. do 4 skip_bind.
  apply (returns_bind (fun ps => length (fst ps) = length (snd ps)));
    [apply params_loop_returns; reflexivity | intros ps L].
  do 2 skip_bind. apply returns_ret. exact L.
Qed.

Lemma global_statement_returns tokens fuel :
  returns is_function_declaration (global_statement tokens fuel).
Proof.
  pose proof (function_declaration_returns tokens fuel).
  unfold global_statement. cbv zeta. do 2 skip_bind.
  repeat first
    [ assumption
    | apply returns_never; discriminate
    | match goal with |- returns _ (if ?b then _ else _) => destruct b end
    | skip_bind ].
Qed.

Lemma parse_loop_returns tokens : forall fuel l s l' s',
  Forall is_function_declaration l ->
  parse_loop tokens fuel l s = Return l' s' ->
  Forall is_function_declaration l' /\ length tokens <= current s'.
Proof.
  induction fuel as [|fuel IH]; intros l s l' s' G; cbn [parse_loop];
    unfold bind at 1; rewrite at_end_spec;
    (destruct (Nat.leb_spec (length tokens) (current s)) as [B | B];
     cbn [negb];
     [intros E; inversion E; subst; split; assumption|]);
    [discriminate|].
  unfold bind.
  destruct (global_statement tokens fuel s) as [n s1 | | |] eqn:E;
    try discriminate.
  apply IH. apply Forall_app. split; [exact G|].
  constructor; [|constructor].
  apply (global_statement_returns tokens fuel s n s1 E).
Qed.

(** X15. When [parse] returns, every token has been consumed and every node
    of the tree is a [FunctionDeclaration] whose lists of parameter types
    and of parameter names have the same length. *)
Theorem parse_returns_function_declarations tokens fuel s ast s' :
  parse tokens fuel s = Return ast s' ->
  Forall is_function_declaration ast /\ length tokens <= current s'.
Proof. apply parse_loop_returns. constructor. Qed.

Lemma parse_returns_function_declarations_witness :
  Forall is_function_declaration
    [FunctionDeclaration "int" "f" ["int"; "int"] ["a"; "b"]
       (ScopeDeclaration [])] /\
  length (tokens_of "int f(int a, int b) { }") <= 11.
Proof.
  apply (parse_returns_function_declarations
           (tokens_of "int f(int a, int b) { }") 100 initial _
           (mkFields 11 true)).
  vm_compute. reflexivity.
Defined.

(** ** The lookahead of declarations on the tokens of the tokenizer *)

Lemma mem_true_in v l : Lexer.mem v l = true -> In v l.
Proof.
  induction l as [|e l IH]; simpl; [discriminate|].
  destruct (String.eqb_spec v e) as [-> | N]; auto.
Qed.

(** X16. On the tokens of a text, [match_key] accepts exactly the
    IDENTIFIER tokens: its list of type names is never matched, since no
    KEYWORD of the tokenizer is one of them. *)
Theorem match_key_accepts_identifiers_only raw tokens s t :
  Lexer.lex raw = Lexer.LexOk tokens ->
  nth_error tokens (current s) = Some t ->
  match_key tokens s =
  if Category_eqb (category t) IDENTIFIER
  then Return true (mkFields (current s + 1) (success s))
  else Return false s.
Proof.
  intros L N.
  assert (W : well_formed t).
  { pose proof (lex_loop_well_formed _ _ _ _ _ (Forall_nil _) L) as G.
    rewrite Forall_forall in G. apply G. apply (nth_error_In _ _ N). }
  destruct t as [c v]. cbn [category].
  destruct (Category_eqb c KEYWORD) eqn:K.
  - destruct c; try discriminate. cbn [Category_eqb].
    apply (match_key_rejects_keywords tokens s v); [|exact N].
    apply mem_true_in. apply W.
  - unfold match_key.
    rewrite (bind_Return _ _ _ _ _ (peek_category_is_spec tokens s _ N _)).
    cbn [category].
    destruct (Category_eqb c IDENTIFIER).
    + rewrite (bind_Return _ _ _ _ _ (advance_spec tokens s _ N)).
      reflexivity.
    + rewrite (bind_Return _ _ _ _ _ (peek_category_is_spec tokens s _ N _)).
      cbn [category]. rewrite K. reflexivity.
Qed.

Lemma match_key_accepts_identifiers_only_witness :
  match_key (tokens_of "int32 x") initial = Return true (mkFields 1 true).
Proof.
  apply (match_key_accepts_identifiers_only "int32 x" _ initial
           (mkToken IDENTIFIER "int32")); vm_compute; reflexivity.
Defined.

(** ** Dispatch of statements *)

(** X17. [else] opens a conditional as [if] does: on either token
    [statement] consumes it and continues as [conditional_statement]. *)
Theorem else_opens_a_conditional tokens f s t :
  nth_error tokens (current s) = Some t ->
  value t = "if" \/ value t = "else" ->
  statement tokens (S f) s =
  conditional_statement tokens f (mkFields (current s + 1) (success s)).
Proof.
  intros N V. cbn [statement]; cbv zeta.
  assert (A : match_ tokens ["{"] s = Return false s)
    by (apply (match_miss tokens _ s t N); destruct V as [-> | ->];
        reflexivity).
  assert (B : match_ tokens ["if"; "else"] s =
              Return true (mkFields (current s + 1) (success s)))
    by (apply (match_hit tokens s t N); destruct V as [-> | ->];
        reflexivity).
  rewrite (bind_Return _ _ _ _ _ A). cbv iota.
  rewrite (bind_Return _ _ _ _ _ B). reflexivity.
Qed.

Lemma else_opens_a_conditional_witness :
  statement (tokens_of "else (a) ; }") 20 initial =
  Return (ConditionalStatement (VariableCall "a") EmptyStatement None)
         (mkFields 5 true).
Proof.
  rewrite (else_opens_a_conditional (tokens_of "else (a) ; }") 19 initial
             (mkToken KEYWORD "else")); [| reflexivity | right; reflexivity].
  vm_compute. reflexivity.
Defined.

(** ** The token after an expression *)

Lemma binary_loop_ends_on_token tokens v values operand :
  forall fuel e s e' s',
    binary_loop tokens (v :: values) operand fuel e s = Return e' s' ->
    current s' < length tokens.
Proof.
  induction fuel as [|fuel IH]; intros e s e' s'; cbn [binary_loop];
    unfold bind at 1;
    pose proof (test_match tokens (v :: values) s) as T;
    pose proof (needs_match tokens v values s) as N;
    (destruct (match_ tokens (v :: values) s) as [[|] s1 | | |];
     try discriminate).
  - intros E. inversion E; subst.
    destruct (Nat.lt_ge_cases (current s') (length tokens)) as [L | L];
      [exact L|].
    destruct (N L); discriminate.
  - unfold bind.
    destruct (previous tokens s1) as [op s2 | | |]; try discriminate.
    destruct (operand s2) as [r s3 | | |]; try discriminate.
    apply IH.
  - intros E. inversion E; subst.
    destruct (Nat.lt_ge_cases (current s') (length tokens)) as [L | L];
      [exact L|].
    destruct (N L); discriminate.
Qed.

(** X14. [expression] returns only in front of a token: each level tests
    the token after its operand, so an expression that ends the token
    vector is never returned. *)
Theorem expression_returns_before_a_token tokens fuel s n s' :
  expression tokens fuel s = Return n s' -> current s' < length tokens.
Proof.
  destruct fuel as [|[|f]]; try discriminate.
  cbn [expression equality]. unfold bind at 1.
  destruct (comparison tokens f s) as [e s1 | | |]; try discriminate.
  apply binary_loop_ends_on_token.
Qed.

Lemma expression_returns_before_a_token_witness :
  current (mkFields 3 true) < length (tokens_of "1 + 2;").
Proof.
  apply (expression_returns_before_a_token (tokens_of "1 + 2;") 9 initial
           (BinaryOperation (IntegerLiteral "1") "+" (IntegerLiteral "2"))).
  vm_compute. reflexivity.
Defined.

(** ** [consume] and [advance] *)

(** X21. [consume] on a token: when the text is the expected one the token
    is returned and the cursor moves by one; otherwise the message is
    thrown with [success] cleared and the cursor where it was. *)
Theorem consume_checks_the_current_token tokens s t type message :
  nth_error tokens (current s) = Some t ->
  consume tokens type message s =
  if String.eqb (value t) type
  then Return t (mkFields (current s + 1) (success s))
  else Throw message (mkFields (current s) false).
Proof.
  intros N. destruct (String.eqb_spec (value t) type) as [E | E].
  - apply consume_hit; assumption.
  - unfold consume.
    rewrite (bind_Return _ _ _ _ _ (peek_value_is_spec tokens s t N type)).
    apply String.eqb_neq in E. rewrite E. reflexivity.
Qed.

Lemma consume_checks_the_current_token_witness :
  consume (tokens_of "x }") ";" "Expected ';' after statement"
    (mkFields 1 true) =
  Throw "Expected ';' after statement" (mkFields 1 false).
Proof.
  apply (consume_checks_the_current_token (tokens_of "x }")
           (mkFields 1 true) (mkToken PUNCTUATOR "}")).
  reflexivity.
Defined.

(** X22. [advance] is clamped: on a token it returns that token and moves
    by one; past the last token it does not move and returns the token
    before the cursor again, which at cursor 0 of an empty vector is an
    index out of bounds. *)
Theorem advance_is_clamped tokens s :
  (forall t, nth_error tokens (current s) = Some t ->
     advance tokens s = Return t (mkFields (current s + 1) (success s))) /\
  (length tokens <= current s ->
     advance tokens s =
     match current s with
     | 0 => OutOfBounds
     | S c => match nth_error tokens c with
              | Some t => Return t s
              | None => OutOfBounds
              end
     end).
Proof.
  split.
  - intros t N. apply advance_spec, N.
  - intros L. destruct (advance_cases tokens s) as [(B & _) | (_ & ->)];
      [lia|].
    unfold previous, bind, get_current, token_at.
    destruct (current s); reflexivity.
Qed.

Lemma advance_is_clamped_witness :
  advance (tokens_of "a as") (mkFields 2 true) =
  Return (mkToken IDENTIFIER "as") (mkFields 2 true).
Proof.
  apply (proj2 (advance_is_clamped (tokens_of "a as") (mkFields 2 true))).
  vm_compute. lia.
Defined.

(** ** Chains of additions and subtractions *)

Lemma digits_are_no_prefix x : digits x -> Lexer.mem x ["-"; "!"] = false.
Proof.
  intros [N D]. destruct x as [|c w]; [contradiction|].
  simpl in D. apply andb_prop in D. destruct D as [D _].
  simpl.
  destruct (Ascii.eqb_spec c "-"%char) as [-> | _]; [discriminate|].
  destruct (Ascii.eqb_spec c "!"%char) as [-> | _]; [discriminate|].
  reflexivity.
Qed.

Lemma previous_spec tokens c b t :
  nth_error tokens c = Some t ->
  previous tokens (mkFields (c + 1) b) = Return t (mkFields (c + 1) b).
Proof.
  intros N. unfold previous, bind, get_current. cbn [current].
  rewrite Nat.add_1_r. unfold token_at. rewrite N. reflexivity.
Qed.

Lemma binary_loop_exit tokens values operand fuel e s :
  match_ tokens values s = Return false s ->
  binary_loop tokens values operand fuel e s = Return e s.
Proof.
  intros E. destruct fuel; cbn [binary_loop];
    rewrite (bind_Return _ _ _ _ _ E); reflexivity.
Qed.

(** An integer literal in front of a token that is none of [%], [*], [/]
    is a whole [factor]. *)
Lemma factor_of_literal tokens c b x u f :
  nth_error tokens c = Some (mkToken INTEGER_LITERAL x) ->
  digits x ->
  nth_error tokens (c + 1) = Some u ->
  Lexer.mem (value u) ["%"; "*"; "/"] = false ->
  factor tokens (S (S (S (S f)))) (mkFields c b) =
  Return (IntegerLiteral x) (mkFields (c + 1) b).
Proof.
  intros N D U V.
  set (s0 := mkFields c b). set (s1 := mkFields (c + 1) b).
  assert (N0 : nth_error tokens (current s0) =
               Some (mkToken INTEGER_LITERAL x)) by exact N.
  assert (N1 : nth_error tokens (current s1) = Some u) by exact U.
  assert (P : primary tokens (S f) s0 = Return (IntegerLiteral x) s1).
  { cbn [primary].
    rewrite (bind_Return _ _ _ _ _ (peek_category_is_spec tokens s0 _ N0 _)).
    cbn [category Category_eqb].
    rewrite (bind_Return _ _ _ _ _ (advance_spec tokens s0 _ N0)).
    reflexivity. }
  assert (Un : unary tokens (S (S f)) s0 = Return (IntegerLiteral x) s1).
  { cbn [unary].
    rewrite (bind_Return _ _ _ _ _
               (match_miss tokens _ s0 _ N0 (digits_are_no_prefix x D))).
    exact P. }
  assert (R : remainder tokens (S (S (S f))) s0
              = Return (IntegerLiteral x) s1).
  { cbn [remainder]. rewrite (bind_Return _ _ _ _ _ Un).
    apply binary_loop_exit. apply (match_miss tokens _ s1 u N1).
    apply (mem_false_incl _ _ _ V). intros y [<- | []]. simpl. tauto. }
  cbn [factor]. rewrite (bind_Return _ _ _ _ _ R).
  apply binary_loop_exit. apply (match_miss tokens _ s1 u N1).
  apply (mem_false_incl _ _ _ V). intros y [<- | [<- | []]]; simpl; tauto.
Qed.

Lemma nth_error_after {A} (pre l : list A) k :
  nth_error (pre ++ l) (length pre + k) = nth_error l k.
Proof.
  rewrite nth_error_app2 by lia. f_equal. lia.
Qed.

Lemma chain_head_is_no_factor_operator rest stop after :
  Forall additive rest -> continues_expression stop = false ->
  exists u, nth_error (chain_tokens rest ++ stop :: after) 0 = Some u /\
            Lexer.mem (value u) ["%"; "*"; "/"] = false.
Proof.
  intros F C. destruct rest as [|[op x] r]; cbn [chain_tokens app nth_error].
  - exists stop. split; [reflexivity|].
    apply (mem_false_incl _ _ _ C). intros y Y. simpl in Y. unfold continuing.
    simpl. tauto.
  - exists (mkToken OPERATOR op). split; [reflexivity|].
    inversion F as [|? ? [O _] _]. cbn [fst] in O.
    destruct O as [-> | ->]; reflexivity.
Qed.

Lemma chain_loop : forall rest pre e stop after b fuel f,
  Forall additive rest -> continues_expression stop = false ->
  length rest <= fuel ->
  binary_loop (pre ++ chain_tokens rest ++ stop :: after) ["+"; "-"]
    (factor (pre ++ chain_tokens rest ++ stop :: after) (S (S (S (S f)))))
    fuel e (mkFields (length pre) b) =
  Return (chain_tree e rest) (mkFields (length pre + 2 * length rest) b).
Proof.
  induction rest as [|[op x] r IH]; intros pre e stop after b fuel f F C L.
  - simpl. rewrite Nat.add_0_r.
    apply (binary_loop_stops _ _ stop); [|exact C|].
    + cbn [current]. rewrite <- (Nat.add_0_r (length pre)).
      rewrite nth_error_after. reflexivity.
    + intros y Y. simpl in Y. unfold continuing. simpl. tauto.
  - inversion F as [|? ? [O D] F']; subst. cbn [fst snd] in O, D.
    destruct fuel as [|fuel]; [simpl in L; lia|].
    set (T := pre ++ chain_tokens ((op, x) :: r) ++ stop :: after).
    assert (N0 : nth_error T (length pre + 0) = Some (mkToken OPERATOR op))
      by (unfold T; rewrite nth_error_after; reflexivity).
    assert (N1 : nth_error T (length pre + 1) =
                 Some (mkToken INTEGER_LITERAL x))
      by (unfold T; rewrite nth_error_after; reflexivity).
    destruct (chain_head_is_no_factor_operator r stop after F' C)
      as (u & U & V).
    assert (N2 : nth_error T (length pre + 1 + 1) = Some u).
    { replace (length pre + 1 + 1) with (length pre + 2) by lia.
      unfold T. rewrite nth_error_after. exact U. }
    rewrite Nat.add_0_r in N0.
    rewrite binary_loop_eq.
    rewrite (bind_Return _ _ _ _ _
               (match_hit T (mkFields (length pre) b) _ N0 ["+"; "-"]
                  ltac:(destruct O as [-> | ->]; reflexivity))).
    cbn [current success]. cbv iota.
    rewrite (bind_Return _ _ _ _ _ (previous_spec T _ b _ N0)).
    rewrite (bind_Return _ _ _ _ _
               (factor_of_literal T _ b x u f N1 D N2 V)).
    cbn [value].
    pose proof (IH (pre ++ [mkToken OPERATOR op; mkToken INTEGER_LITERAL x])
                  (BinaryOperation e op (IntegerLiteral x))
                  stop after b fuel f F' C ltac:(simpl in L; lia)) as H.
    rewrite <- app_assoc in H. cbn [app] in H.
    rewrite length_app in H. cbn [length] in H.
    replace (length pre + 2 + 2 * length r)
      with (length pre + 2 * length ((op, x) :: r)) in H
      by (cbn [length]; lia).
    replace (length pre + 1 + 1) with (length pre + 2) by lia.
    exact H.
Qed.

(** X20. Additions and subtractions associate to the left, whatever the
    length of the chain: [x0 op1 x1 ... opk xk], with integer operands and
    each [op] one of [+] and [-], in front of a token that does not
    continue the expression, parses to
    [((x0 op1 x1) op2 x2) ... opk xk]. *)
Theorem sums_associate_to_the_left x0 rest stop after b fuel :
  digits x0 -> Forall additive rest ->
  continues_expression stop = false ->
  length rest + 9 <= fuel ->
  expression
    (mkToken INTEGER_LITERAL x0 :: chain_tokens rest ++ stop :: after)
    fuel (mkFields 0 b) =
  Return (chain_tree (IntegerLiteral x0) rest)
         (mkFields (1 + 2 * length rest) b).
Proof.
  intros D F C L.
  set (T := mkToken INTEGER_LITERAL x0 :: chain_tokens rest ++ stop :: after).
  destruct fuel as [|[|[|[|[|[|[|[|[|f]]]]]]]]]; try lia.
  destruct (chain_head_is_no_factor_operator rest stop after F C)
    as (u & U & V).
  assert (E : term T (S (S (S (S (S f))))) (mkFields 0 b) =
              Return (chain_tree (IntegerLiteral x0) rest)
                     (mkFields (1 + 2 * length rest) b)).
  { cbn [term].
    rewrite (bind_Return _ _ _ _ _
               (factor_of_literal T 0 b x0 u f eq_refl D U V)).
    apply (chain_loop rest [mkToken INTEGER_LITERAL x0]
             (IntegerLiteral x0) stop after b _ f F C).
    lia. }
  assert (N : nth_error T (current (mkFields (1 + 2 * length rest) b))
              = Some stop).
  { cbn [current]. unfold T. cbn [Nat.add nth_error].
    clear. induction rest as [|[op x] r IH]; [reflexivity|].
    cbn [chain_tokens length app]. 
    replace (2 * S (length r)) with (S (S (2 * length r))) by lia.
    exact IH. }
  apply (expression_of_cast T _ stop N C).
  apply (cast_of_term T _ stop N C). exact E.
Qed.

Lemma sums_associate_to_the_left_witness :
  expression (tokens_of "1 - 2 + 3 - 4;") 12 initial =
  Return (BinaryOperation
            (BinaryOperation
               (BinaryOperation (IntegerLiteral "1") "-" (IntegerLiteral "2"))
               "+" (IntegerLiteral "3"))
            "-" (IntegerLiteral "4"))
         (mkFields 7 true).
Proof.
  apply (sums_associate_to_the_left "1"
           [("-", "2"); ("+", "3"); ("-", "4")]
           (mkToken PUNCTUATOR ";") [] true 12).
  - split; [discriminate | reflexivity].
  - repeat constructor; simpl; auto; discriminate.
  - reflexivity.
  - simpl. lia.
Defined.

(** ** Words and numbers *)

Lemma extend_all p raw : forall fuel i v,
  i < String.length raw ->
  (forall j, i < j < String.length raw -> p (Lexer.char_at raw j) = true) ->
  String.length raw <= i + 1 + fuel ->
  Lexer.extend (fun _ c => p c) raw fuel i v =
  Some (String.length raw - 1,
        (v ++ substring (i + 1) (String.length raw - (i + 1)) raw)%string).
Proof.
  induction fuel as [|fuel IH]; intros i v L Q F.
  - assert (E : i + 1 = String.length raw) by lia.
    simpl. rewrite E, Nat.ltb_irrefl. simpl.
    rewrite Nat.sub_diag, substring_none, append_empty.
    f_equal. f_equal. lia.
  - simpl. destruct (Nat.ltb_spec (i + 1) (String.length raw)) as [N | N].
    + rewrite (Q (i + 1)) by lia. simpl.
      rewrite (IH (i + 1)); [| lia | intros j J; apply Q; lia | lia].
      replace (String.length raw - (i + 1))
        with (S (String.length raw - (i + 1 + 1))) by lia.
      rewrite (substring_step raw (i + 1)) by lia.
      rewrite push_append. reflexivity.
    + assert (E : i + 1 = String.length raw) by lia.
      simpl. rewrite E, Nat.sub_diag, substring_none, append_empty.
      f_equal. f_equal. lia.
Qed.

Lemma substring_whole w : substring 0 (String.length w) w = w.
Proof. induction w as [|c w IH]; simpl; [|rewrite IH]; reflexivity. Qed.

Lemma extend_whole p c w :
  all_chars p w = true ->
  Lexer.extend (fun _ x => p x) (String c w) (String.length (String c w)) 0
    (Lexer.str1 c) =
  Some (String.length w, String c w).
Proof.
  intros A.
  rewrite extend_all; [| simpl; lia | | lia].
  - replace (String.length (String c w) - 1) with (String.length w)
      by (simpl; lia).
    replace (String.length (String c w) - (0 + 1)) with (String.length w)
      by (simpl; lia).
    change (substring (0 + 1) (String.length w) (String c w))
      with (substring 0 (String.length w) w).
    rewrite substring_whole. reflexivity.
  - intros j J. simpl in J. destruct j as [|j]; [lia|].
    change (Lexer.char_at (String c w) (S j)) with (Lexer.char_at w j).
    apply (all_chars_at p w A). lia.
Qed.

Lemma letter_is_no_space c : Lexer.isalpha c = true -> Lexer.isspace c = false.
Proof.
  unfold Lexer.isalpha, Lexer.isspace. cbv zeta.
  generalize (nat_of_ascii c). intros n.
  repeat match goal with
         | |- context [(?a <=? ?b)%nat] => destruct (Nat.leb_spec a b)
         | |- context [(?a =? ?b)%nat] => destruct (Nat.eqb_spec a b)
         end; simpl; intros; try reflexivity; try discriminate; lia.
Qed.

Lemma digit_is_no_space_or_letter c :
  Lexer.isdigit c = true ->
  Lexer.isspace c = false /\ Lexer.isalpha c = false.
Proof.
  unfold Lexer.isalpha, Lexer.isspace, Lexer.isdigit. cbv zeta.
  generalize (nat_of_ascii c). intros n.
  repeat match goal with
         | |- context [(?a <=? ?b)%nat] => destruct (Nat.leb_spec a b)
         | |- context [(?a =? ?b)%nat] => destruct (Nat.eqb_spec a b)
         end; simpl; intros; try (split; reflexivity); try discriminate; lia.
Qed.

Lemma after_the_end fuel raw i tokens :
  String.length raw <= i ->
  Lexer.lex_loop (S fuel) raw i tokens = Lexer.LexOk tokens.
Proof.
  intros L. cbn [Lexer.lex_loop]. cbv zeta.
  destruct (Nat.ltb_spec i (String.length raw)) as [B | B]; [lia|].
  reflexivity.
Qed.

(** X6. A word lexes to itself, as one token: a BOOLEAN_LITERAL for [true]
    and [false], a KEYWORD for the other entries of the keyword table, an
    IDENTIFIER otherwise. A string of digits lexes to itself as one
    INTEGER_LITERAL. *)
Theorem words_and_numbers_lex_to_themselves v :
  (word v ->
   Lexer.lex v =
   Lexer.LexOk
     [mkToken (if String.eqb v "false" || String.eqb v "true"
               then BOOLEAN_LITERAL
               else if Lexer.is_keyword v then KEYWORD else IDENTIFIER) v]) /\
  (digits v -> Lexer.lex v = Lexer.LexOk [mkToken INTEGER_LITERAL v]).
Proof.
  split.
  - intros (c & w & -> & A & W).
    unfold Lexer.lex. cbn [Lexer.lex_loop]. cbv zeta.
    change (Lexer.char_at (String c w) 0) with c.
    change (0 <? String.length (String c w))%nat with true.
    rewrite (letter_is_no_space c A), A. cbn [negb].
    change Lexer.alnum_next with (fun (_ : string) x => alnum x).
    rewrite (extend_whole alnum c w W). unfold Lexer.with_extend.
    cbn [app]. apply after_the_end. simpl. lia.
  - intros [N D]. destruct v as [|c w]; [contradiction|].
    simpl in D. apply andb_prop in D. destruct D as [D W].
    destruct (digit_is_no_space_or_letter c D) as [S0 A].
    unfold Lexer.lex. cbn [Lexer.lex_loop]. cbv zeta.
    change (Lexer.char_at (String c w) 0) with c.
    change (0 <? String.length (String c w))%nat with true.
    rewrite S0, A, D. cbn [negb].
    change Lexer.digit_next with (fun (_ : string) x => Lexer.isdigit x).
    rewrite (extend_whole Lexer.isdigit c w W). unfold Lexer.with_extend.
    rewrite (char_at_beyond (String c w) (String.length w + 1))
      by (simpl; lia).
    cbn [Ascii.eqb Ascii.zero Bool.eqb andb app].
    apply after_the_end. simpl. lia.
Qed.

Lemma words_and_numbers_lex_to_themselves_witness :
  Lexer.lex "while" = Lexer.LexOk [mkToken KEYWORD "while"].
Proof.
  apply (proj1 (words_and_numbers_lex_to_themselves "while")).
  exists "w"%char, "hile". repeat split; reflexivity.
Defined.

(** X7. Maximal munch on the tables: every entry of the operator table and
    every entry of the punctuator table lexes to one token holding the
    whole entry. *)
Theorem table_entries_are_single_tokens :
  (forall op, In op Lexer.operators ->
     Lexer.lex op = Lexer.LexOk [mkToken OPERATOR op]) /\
  (forall p, In p Lexer.punctuators ->
     Lexer.lex p = Lexer.LexOk [mkToken PUNCTUATOR p]).
Proof.
  split; intros x X; unfold Lexer.operators, Lexer.punctuators in X;
    simpl in X;
    repeat (destruct X as [<- | X]; [vm_compute; reflexivity|]);
    contradiction.
Qed.

Lemma table_entries_are_single_tokens_witness :
  Lexer.lex "<=" = Lexer.LexOk [mkToken OPERATOR "<="].
Proof.
  apply (proj1 table_entries_are_single_tokens). simpl. tauto.
Defined.

(** ** Keywords without a rule *)

Lemma bind_Throw {A B} (m : M A) (k : A -> M B) s msg s' :
  m s = Throw msg s' -> bind m k s = Throw msg s'.
Proof. intros E. unfold bind. rewrite E. reflexivity. Qed.

(** A KEYWORD that is no prefix operator and no parenthesis starts no
    expression: [expression] reports it. *)
Lemma expression_rejects tokens s kw f :
  nth_error tokens (current s) = Some (mkToken KEYWORD kw) ->
  Lexer.mem kw ["-"; "!"; "("] = false ->
  expression tokens (9 + f) s =
  Throw ("Unexpected token '" ++ kw ++ "'") (mkFields (current s) false).
Proof.
  intros N V.
  pose proof (fun c => peek_category_is_spec tokens s _ N c) as PC.
  cbn [category] in PC.
  assert (P : primary tokens (S f) s =
              Throw ("Unexpected token '" ++ kw ++ "'")
                    (mkFields (current s) false)).
  { cbn [primary].
    rewrite (bind_Return _ _ _ _ _ (PC INTEGER_LITERAL)). cbn [Category_eqb].
    rewrite (bind_Return _ _ _ _ _ (PC FLOAT_LITERAL)). cbn [Category_eqb].
    rewrite (bind_Return _ _ _ _ _ (PC BOOLEAN_LITERAL)). cbn [Category_eqb].
    rewrite (bind_Return _ _ _ _ _ (PC STRING_LITERAL)). cbn [Category_eqb].
    rewrite (bind_Return _ _ _ _ _ (PC IDENTIFIER)). cbn [Category_eqb].
    rewrite (bind_Return _ _ _ _ _
               (match_miss tokens ["("] s _ N
                  (mem_false_incl kw _ ["("] V
                     ltac:(intros y [<- | []]; simpl; tauto)))).
    unfold bind. rewrite peek_spec, N. reflexivity. }
  assert (U : unary tokens (S (S f)) s =
              Throw ("Unexpected token '" ++ kw ++ "'")
                    (mkFields (current s) false)).
  { cbn [unary].
    rewrite (bind_Return _ _ _ _ _
               (match_miss tokens ["-"; "!"] s _ N
                  (mem_false_incl kw _ ["-"; "!"] V
                     ltac:(intros y [<- | [<- | []]]; simpl; tauto)))).
    exact P. }
  change (9 + f) with (S (S (S (S (S (S (S (S (S f))))))))).
  cbn [expression equality]. apply bind_Throw.
  cbn [comparison]. apply bind_Throw.
  cbn [cast]. apply bind_Throw.
  cbn [term]. apply bind_Throw.
  cbn [factor]. apply bind_Throw.
  cbn [remainder]. apply bind_Throw.
  exact U.
Qed.

(** X18. The keywords [let], [var], [const], [function], [for], [break] and
    [continue] start nothing: on such a token [statement] throws
    [Unexpected token] with [success] cleared, and [global_statement]
    throws its own message. *)
Theorem reserved_keywords_start_nothing tokens s kw f :
  In kw ["let"; "var"; "const"; "function"; "for"; "break"; "continue"] ->
  nth_error tokens (current s) = Some (mkToken KEYWORD kw) ->
  statement tokens (10 + f) s =
    Throw ("Unexpected token '" ++ kw ++ "'") (mkFields (current s) false) /\
  global_statement tokens f s =
    Throw "Unexpected global statement encountered." s.
Proof.
  intros K N.
  assert (Kw : In kw Lexer.keywords).
  { unfold Lexer.keywords. simpl. simpl in K.
    repeat (destruct K as [<- | K]; [tauto|]). contradiction. }
  assert (V : Lexer.mem kw
                ["{"; "if"; "else"; "while"; "return"; ";"; "-"; "!"; "(";
                 "void"] = false).
  { simpl in K.
    repeat (destruct K as [<- | K]; [reflexivity|]). contradiction. }
  assert (miss : forall values,
            incl values ["{"; "if"; "else"; "while"; "return"; ";"; "-"; "!";
                         "("; "void"] ->
            match_ tokens values s = Return false s).
  { intros values I. apply (match_miss tokens values s _ N).
    apply (mem_false_incl _ _ _ V I). }
  pose proof (match_key_rejects_keywords tokens s kw Kw N) as MK.
  pose proof (peek_category_is_spec tokens s _ N IDENTIFIER) as PI.
  cbn [category Category_eqb] in PI.
  split.
  - change (10 + f) with (S (9 + f)). cbn [statement]; cbv zeta.
    rewrite (bind_Return _ _ _ _ _
               (miss ["{"] ltac:(intros y Y; simpl in Y; simpl; tauto))).
    rewrite (bind_Return _ _ _ _ _
               (miss ["if"; "else"] ltac:(intros y Y; simpl in Y; simpl; tauto))).
    rewrite (bind_Return _ _ _ _ _
               (miss ["while"] ltac:(intros y Y; simpl in Y; simpl; tauto))).
    rewrite (bind_Return _ _ _ _ _
               (miss ["return"] ltac:(intros y Y; simpl in Y; simpl; tauto))).
    rewrite (bind_Return _ _ _ _ _ PI).
    rewrite (bind_Return _ _ _ _ _ MK).
    rewrite (bind_Return _ _ _ _ _
               (miss [";"] ltac:(intros y Y; simpl in Y; simpl; tauto))).
    apply (expression_rejects tokens s kw f N).
    apply (mem_false_incl _ _ _ V). intros y Y; simpl in Y; simpl; tauto.
  - unfold global_statement. cbv zeta.
    rewrite (bind_Return _ _ _ _ _
               (miss ["void"] ltac:(intros y Y; simpl in Y; simpl; tauto))).
    rewrite (bind_Return _ _ _ _ _ MK). reflexivity.
Qed.

Lemma reserved_keywords_start_nothing_witness :
  statement (tokens_of "for (;;) { }") 10 initial =
  Throw "Unexpected token 'for'" (mkFields 0 false).
Proof.
  apply (proj1 (reserved_keywords_start_nothing
                  (tokens_of "for (;;) { }") initial "for" 0
                  ltac:(simpl; tauto) eq_refl)).
Defined.

(** ** Declarations *)

(** X19. A declaration [type id = expr ;] whose type is any IDENTIFIER
    becomes [VariableDeclaration type id expr], where [expr] is what
    [expression] returns on the tokens after the [=]. The texts are those
    of IDENTIFIER tokens: [type] is none of the texts [statement]
    dispatches on, [id] is no assignment operator and no parenthesis. *)
Theorem typed_declaration tokens f s type id eq v s' semi :
  nth_error tokens (current s) = Some (mkToken IDENTIFIER type) ->
  Lexer.mem type dispatched = false ->
  nth_error tokens (current s + 1) = Some (mkToken IDENTIFIER id) ->
  Lexer.mem id ["="; "+="; "-="; "*="; "/="; "%="; "("] = false ->
  nth_error tokens (current s + 1 + 1) = Some eq -> value eq = "=" ->
  expression tokens f (mkFields (current s + 1 + 1 + 1) (success s)) =
    Return v s' ->
  nth_error tokens (current s') = Some semi -> value semi = ";" ->
  statement tokens (S f) s =
  Return (VariableDeclaration type id v)
         (mkFields (current s' + 1) (success s')).
Proof.
  intros T D I A Q QV E S0 SV.
  assert (miss : forall values, incl values dispatched ->
            match_ tokens values s = Return false s).
  { intros values J. apply (match_miss tokens values s _ T).
    apply (mem_false_incl _ _ _ D J). }
  set (s1 := mkFields (current s + 1) (success s)).
  set (s2 := mkFields (current s + 1 + 1) (success s)).
  assert (I1 : nth_error tokens (current s1) = Some (mkToken IDENTIFIER id))
    by exact I.
  assert (Q2 : nth_error tokens (current s2) = Some eq) by exact Q.
  cbn [statement]; cbv zeta.
  rewrite (bind_Return _ _ _ _ _
             (miss ["{"] ltac:(intros x [<-|[]]; simpl; tauto))).
  rewrite (bind_Return _ _ _ _ _
             (miss ["if"; "else"]
                ltac:(intros x [<-|[<-|[]]]; simpl; tauto))).
  rewrite (bind_Return _ _ _ _ _
             (miss ["while"] ltac:(intros x [<-|[]]; simpl; tauto))).
  rewrite (bind_Return _ _ _ _ _
             (miss ["return"] ltac:(intros x [<-|[]]; simpl; tauto))).
  rewrite (bind_Return _ _ _ _ _ (peek_category_is_spec tokens s _ T _)).
  cbn [category Category_eqb].
  rewrite (bind_Return _ _ _ _ _ (match_next_spec tokens s _ _ I)).
  cbn [value].
  rewrite (mem_false_incl _ _ _ A)
    by (intros x X; simpl in X; simpl; tauto).
  rewrite (bind_Return _ _ _ _ _ (match_next_spec tokens s _ _ I)).
  cbn [value].
  rewrite (mem_false_incl _ _ _ A)
    by (intros x X; simpl in X; simpl; tauto).
  assert (MK : match_key tokens s = Return true s1).
  { unfold match_key.
    rewrite (bind_Return _ _ _ _ _ (peek_category_is_spec tokens s _ T _)).
    cbn [category Category_eqb].
    rewrite (bind_Return _ _ _ _ _ (advance_spec tokens s _ T)).
    reflexivity. }
  rewrite (bind_Return _ _ _ _ _ MK).
  rewrite (bind_Return _ _ _ _ _ (peek_category_is_spec tokens s1 _ I1 _)).
  cbn [category Category_eqb].
  rewrite (bind_Return _ _ _ _ _ (match_next_spec tokens s1 _ _ Q)).
  rewrite QV. cbn [Lexer.mem String.eqb Ascii.eqb Bool.eqb].
  unfold variable_declaration.
  assert (PV : previous tokens s1 = Return (mkToken IDENTIFIER type) s1)
    by exact (previous_spec tokens (current s) (success s) _ T).
  rewrite (bind_Return _ _ _ _ _ PV).
  rewrite (bind_Return _ _ _ _ _ (peek_category_is_spec tokens s1 _ I1 _)).
  cbn [category Category_eqb value].
  assert (Ad : bind (advance tokens) (fun t => ret (value t)) s1 =
               Return id s2)
    by (rewrite (bind_Return _ _ _ _ _ (advance_spec tokens s1 _ I1));
        reflexivity).
  rewrite (bind_Return _ _ _ _ _ Ad).
  rewrite (bind_Return _ _ _ _ _ (consume_hit tokens s2 eq Q2 "=" _ QV)).
  cbn [current success s2].
  rewrite (bind_Return _ _ _ _ _ E).
  rewrite (bind_Return _ _ _ _ _ (consume_hit tokens s' semi S0 ";" _ SV)).
  reflexivity.
Qed.

Lemma typed_declaration_witness :
  statement (tokens_of "float64 y = 2 * x;") 10 initial =
  Return (VariableDeclaration "float64" "y"
            (BinaryOperation (IntegerLiteral "2") "*" (VariableCall "x")))
         (mkFields 7 true).
Proof.
  apply (typed_declaration (tokens_of "float64 y = 2 * x;") 9 initial
           "float64" "y" (mkToken OPERATOR "=")
           (BinaryOperation (IntegerLiteral "2") "*" (VariableCall "x"))
           (mkFields 6 true) (mkToken PUNCTUATOR ";"));
    reflexivity.
Defined.
